(** * interrupt-go: context propagation of interrupt signals

    A verification development for [interrupt.Handle] (src/interrupt.go).

    The function is three statements long, and everything it does it does
    through Go's [context] and [os/signal] packages and through a goroutine
    it starts.  The development therefore has three layers:

    - the platform: cancellation contexts, buffered signal channels and the
      process-wide handler table of [os/signal], as a state record with the
      operations [WithCancel], [Notify], [Stop], [NotifyContext];
    - the program: [Handle], written in a monad of state, panics and
      waiting exactly as the source composes the platform calls;
    - the process: an interleaving small-step semantics ([step]) whose
      events are the things that can happen to a running process: the
      application derives or cancels contexts, calls [Handle], the operating
      system delivers a signal, the scheduler runs one goroutine.

    On top of the process sits the package variable [Signals], which
    [Handle] reads at every call and which the application can assign to
    ([pstep]).

    What the model fixes:

    - parents are the root context and contexts derived from it with
      [context.WithCancel] or by [Handle] itself; a deadline that passes is
      the event that cancels the context;
    - cancelling a context closes its Done channel and those of the
      contexts derived from it in one step, as [cancel] does under the lock
      of the context;
    - the three statements of [Handle] are one step of the process; the
      goroutines it starts run one statement per step, interleaved with
      everything else;
    - the signal channel has room for one signal, a signal sent to a full
      channel is dropped, as in the runtime's signal loop;
    - the program is started with the default treatment of every signal,
      and a registration receives every signal it asks for (the signals
      that no program can catch, SIGKILL and SIGSTOP, are in no signal set
      of the package);
    - goroutines are those of the program and of the packages it calls, as
      [runtime.NumGoroutine] counts them; the runtime's own are not
      modelled. *)

From stdpp Require Import gmap strings list fin_maps.

(** ** Signals *)

(** A signal is its number, as in [syscall.Signal]. *)
Abbreviation signal := nat (only parsing).

Definition SIGHUP : signal := 1.
Definition SIGINT : signal := 2.    (* os.Interrupt *)
Definition SIGTERM : signal := 15.  (* syscall.SIGTERM *)

(** The build targets of the package: the [Signals] variable is declared
    once per target. *)
Inductive platform := Unix | NonUnix.

(** Modelled from the spec: the declaration of the package variable [Signals]
    is not in src/interrupt.go (it lives in per-platform files); section 4.1
    and the package comment say it is [os.Interrupt], extended with
    [syscall.SIGTERM] on unix-like platforms. *)
Definition Signals_on (pf : platform) : list signal :=
  match pf with
  | Unix => [SIGINT; SIGTERM]
  | NonUnix => [SIGINT]
  end.

(** The other signals that end a Go program (Linux numbers). *)
Definition SIGQUIT : signal := 3.
Definition SIGILL : signal := 4.
Definition SIGTRAP : signal := 5.
Definition SIGABRT : signal := 6.
Definition SIGBUS : signal := 7.
Definition SIGFPE : signal := 8.
Definition SIGKILL : signal := 9.
Definition SIGSEGV : signal := 11.
Definition SIGSTKFLT : signal := 16.
Definition SIGSYS : signal := 31.

(** What happens to the process when a signal arrives that nobody asked to
    be notified of (package os/signal, "Default behavior of signals in Go
    programs", and the runtime's signal table): SIGHUP, SIGINT and SIGTERM
    make the program exit; SIGQUIT, SIGILL, SIGTRAP, SIGABRT, SIGSTKFLT and
    SIGSYS make it exit with a stack dump; SIGBUS, SIGFPE and SIGSEGV
    become a run-time panic, which ends it; SIGKILL ends every process.
    The job-control signals stop the process without ending it, and "other
    signals will be caught but no action will be taken".  This is the
    treatment of a program that was started with the default disposition of
    every signal. *)
Definition default_exits (sig : signal) : bool :=
  bool_decide (sig ∈ [SIGHUP; SIGINT; SIGQUIT; SIGILL; SIGTRAP; SIGABRT;
                      SIGBUS; SIGFPE; SIGKILL; SIGSEGV; SIGTERM; SIGSTKFLT;
                      SIGSYS]).

(** ** Contexts *)

(** A context value is immutable: it knows the object it denotes (by the
    object's identity) and its parent.  Whether it is done is mutable state
    and lives in the process state below.

    [SignalCtx] is os/signal's [signalCtx]: in Go it embeds the [cancelCtx]
    made by [context.WithCancel] and adds the channel; here the two objects
    are one node. *)
Inductive ctx :=
| Background
| CancelCtx (id : nat) (parent : ctx)
| SignalCtx (id : nat) (ch : nat) (parent : ctx).

(** A value of the interface type [context.Context]: [None] is nil. *)
Abbreviation Context := (option ctx) (only parsing).

#[global] Instance ctx_eq_dec : EqDecision ctx := ltac:(solve_decision).

Definition ctx_id (c : ctx) : option nat :=
  match c with
  | Background => None
  | CancelCtx i _ | SignalCtx i _ _ => Some i
  end.

Definition ctx_parent (c : ctx) : option ctx :=
  match c with
  | Background => None
  | CancelCtx _ p | SignalCtx _ _ p => Some p
  end.

(** The identities of [c] and of all its ancestors. *)
Fixpoint chain (c : ctx) : list nat :=
  match c with
  | Background => []
  | CancelCtx i p | SignalCtx i _ p => i :: chain p
  end.

(** [c] is [a] or was derived, in any number of steps, from [a]. *)
Definition descends (a : nat) (c : ctx) : bool := bool_decide (a ∈ chain c).

(** ** Goroutines *)

(** A [context.CancelFunc] is a closure; the two closures that occur are
    the one [context.WithCancel] returns and [signalCtx.stop]. *)
Inductive cancel_func :=
| CancelOf (c : ctx)            (* cancel the context *)
| StopOf (c : ctx) (ch : nat).  (* c.cancel(); signal.Stop(c.ch) *)

(** A goroutine is the statement it is about to execute, with the variables
    it captured. *)
Inductive goroutine :=
| Notifier_select (c : ctx) (ch : nat)
    (* NotifyContext:  select { case <-c.ch: ... ; case <-c.Done(): } *)
| Notifier_cancel (c : ctx)
    (* NotifyContext:  c.cancel()  after a signal was received *)
| Waiter_recv (c : ctx) (cancel : cancel_func)
    (* Handle, line 57:  <-ctx.Done() *)
| Waiter_call (cancel : cancel_func)
    (* Handle, line 58:  cancel() *)
| Exited.

(** ** Process state *)

Record state := State {
  ctxs : list ctx;
    (* the cancellable contexts created so far; identity = position *)
  closed : gset nat;
    (* the contexts whose Done channel is closed *)
  chans : list (option nat);
    (* the signal channels, [make(chan os.Signal, 1)]: empty or one signal *)
  handlers : gmap nat (list nat);
    (* os/signal's handler table: channel -> signals asked for *)
  pool : list goroutine;
    (* the goroutines of the contexts: notifiers and waiters *)
  loop : bool;
    (* the loop goroutine of os/signal runs: the first signal.Notify of a
       process starts it, it relays the signals and never ends *)
  exited : bool
    (* the process is gone (default action of a signal, or a panic) *)
}.

Definition init : state :=
  {| ctxs := []; closed := ∅; chans := []; handlers := ∅; pool := [];
     loop := false; exited := false |}.

Definition set_ctxs (f : list ctx → list ctx) (s : state) : state :=
  {| ctxs := f (ctxs s); closed := closed s; chans := chans s;
     handlers := handlers s; pool := pool s; loop := loop s;
     exited := exited s |}.
Definition set_closed (f : gset nat → gset nat) (s : state) : state :=
  {| ctxs := ctxs s; closed := f (closed s); chans := chans s;
     handlers := handlers s; pool := pool s; loop := loop s;
     exited := exited s |}.
Definition set_chans (f : list (option nat) → list (option nat)) (s : state) : state :=
  {| ctxs := ctxs s; closed := closed s; chans := f (chans s);
     handlers := handlers s; pool := pool s; loop := loop s;
     exited := exited s |}.
Definition set_handlers (f : gmap nat (list nat) → gmap nat (list nat)) (s : state) : state :=
  {| ctxs := ctxs s; closed := closed s; chans := chans s;
     handlers := f (handlers s); pool := pool s; loop := loop s;
     exited := exited s |}.
Definition set_pool (f : list goroutine → list goroutine) (s : state) : state :=
  {| ctxs := ctxs s; closed := closed s; chans := chans s;
     handlers := handlers s; pool := f (pool s); loop := loop s;
     exited := exited s |}.
Definition set_loop (b : bool) (s : state) : state :=
  {| ctxs := ctxs s; closed := closed s; chans := chans s;
     handlers := handlers s; pool := pool s; loop := b;
     exited := exited s |}.
Definition set_exited (b : bool) (s : state) : state :=
  {| ctxs := ctxs s; closed := closed s; chans := chans s;
     handlers := handlers s; pool := pool s; loop := loop s;
     exited := b |}.

(** ** The monad of state, panics and waiting *)

(** A computation of a goroutine returns, panics, or cannot go on in this
    state: it waits on a channel ([Blocked]). *)
Inductive result (A : Type) :=
| Ok (a : A)
| Panic (msg : string)
| Blocked.
Arguments Ok {A} a.
Arguments Panic {A} msg.
Arguments Blocked {A}.

Definition M (A : Type) : Type := state → result (A * state).

Definition ret {A} (a : A) : M A := λ s, Ok (a, s).
Definition bind {A B} (m : M A) (k : A → M B) : M B :=
  λ s, match m s with
       | Ok (a, s') => k a s'
       | Panic msg => Panic msg
       | Blocked => Blocked
       end.
Definition panic {A} (msg : string) : M A := λ _, Panic msg.
Definition modify (f : state → state) : M unit := λ s, Ok (tt, f s).
Definition gets {A} (f : state → A) : M A := λ s, Ok (f s, s).

Declare Scope go_scope.
Delimit Scope go_scope with go.
Notation "x <- m ;; k" := (bind m (λ x, k))
  (at level 100, m at next level, right associativity) : go_scope.
Notation "m ;;; k" := (bind m (λ _, k))
  (at level 100, right associativity) : go_scope.
Local Open Scope go_scope.

(** ** Package context *)

(** [ctx.Done()] is closed / [ctx.Err() != nil]. *)
Definition is_done (s : state) (c : ctx) : bool :=
  match ctx_id c with
  | None => false
  | Some i => bool_decide (i ∈ closed s)
  end.

(** [<-ctx.Done()]: the receive goes on once the Done channel is closed, and
    waits as long as it is not. *)
Definition recv_done (c : ctx) : M unit :=
  λ s, if is_done s c then Ok (tt, s) else Blocked.

(** The contexts that [cancel] reaches from context [i]: itself and, through
    the [children] maps, everything derived from it. *)
Definition reached (i : nat) (s : state) : gset nat :=
  list_to_set (omap ctx_id (filter (λ d, descends i d = true) (ctxs s))).

(** The [cancel] method of [cancelCtx]: nothing if already cancelled; else close Done and
    cancel the children. *)
Definition cancel (c : ctx) (s : state) : state :=
  match ctx_id c with
  | None => s
  | Some i =>
      if is_done s c then s
      else set_closed (λ cl, cl ∪ {[i]} ∪ reached i s) s
  end.

(** [withCancel] and [propagateCancel]: a nil parent panics; the new context
    is cancelled on the spot when the parent is already done. *)
Definition withCancel (mk : nat → ctx → ctx) (parent : Context) : M ctx :=
  match parent with
  | None => panic "cannot create context from nil parent"
  | Some p =>
      i <- gets (λ s, length (ctxs s)) ;;
      let c := mk i p in
      modify (set_ctxs (λ l, l ++ [c])) ;;;
      pdone <- gets (λ s, is_done s p) ;;
      (if pdone : bool then modify (cancel c) else ret tt) ;;;
      ret c
  end.

Definition WithCancel (parent : Context) : M (ctx * cancel_func) :=
  c <- withCancel CancelCtx parent ;;
  ret (c, CancelOf c).

(** ** Package os/signal *)

Definition make_chan : M nat :=
  ch <- gets (λ s, length (chans s)) ;;
  modify (set_chans (λ l, l ++ [None])) ;;;
  ret ch.

(** The signals of the platform are the numbers below [numSig] (Linux: 65);
    [signal.Notify] skips any other ([signum] gives -1 for it). *)
Definition numSig : nat := 65.

(** A call of [signal.Notify] with these signals enables at least one
    signal: it was given none, which stands for all, or one that the
    platform has. *)
Definition enables (sigs : list nat) : bool :=
  match sigs with
  | [] => true
  | _ => bool_decide (Exists (λ sig, sig < numSig) sigs)
  end.

(** [signal.Notify(c, sig...)].  "If no signals are provided, all incoming
    signals will be relayed to c.  Otherwise, just the provided signals
    will."  Enabling a signal starts the loop goroutine of the package,
    once per process ([watchSignalLoopOnce]); that goroutine is the one that
    relays the signals ([deliver] below is one turn of its loop). *)
Definition Notify (ch : nat) (sigs : list nat) (s : state) : state :=
  set_loop (loop s || enables sigs)
    (set_handlers (λ h, <[ch := sigs]> h) s).

Definition wants (sigs : list nat) (sig : nat) : bool :=
  match sigs with
  | [] => true
  | _ => bool_decide (sig ∈ sigs)
  end.

(** [signal.Stop(c)]: "When Stop returns, it is guaranteed that c will
    receive no more signals." *)
Definition Stop (ch : nat) : state → state :=
  set_handlers (λ h, delete ch h).

(** Run a cancel function. *)
Definition call (f : cancel_func) (s : state) : state :=
  match f with
  | CancelOf c => cancel c s
  | StopOf c ch => Stop ch (cancel c s)
  end.

(** The [go] statement. *)
Definition go (g : goroutine) : M unit :=
  modify (set_pool (λ l, l ++ [g])).

(** The function literal of [Handle] (src/interrupt.go, lines 56-59), as the
    goroutine that runs it executes it:
<<
    <-ctx.Done()
    cancel()
>> *)
Definition waiter (c : ctx) (cancel : cancel_func) : M unit :=
  recv_done c ;;;
  modify (call cancel).

(** [signal.NotifyContext]:
<<
    ctx, cancel := context.WithCancel(parent)
    c := &signalCtx{Context: ctx, cancel: cancel, signals: signals}
    c.ch = make(chan os.Signal, 1)
    Notify(c.ch, c.signals...)
    if ctx.Err() == nil {
        go func() {
            select {
            case <-c.ch:
                c.cancel()
            case <-c.Done():
            }
        }()
    }
    return c, c.stop
>>
    The channel is made first here because the one node [SignalCtx] stands
    for both [ctx] and [c]; nothing can observe the difference. *)
Definition NotifyContext (parent : Context) (signals : list nat)
  : M (ctx * cancel_func) :=
  ch <- make_chan ;;
  c <- withCancel (λ i p, SignalCtx i ch p) parent ;;
  modify (Notify ch signals) ;;;
  done <- gets (λ s, is_done s c) ;;
  (if done : bool then ret tt else go (Notifier_select c ch)) ;;;
  ret (c, StopOf c ch).

(** The runtime's signal loop, [process(sig)]: the signal is sent, without
    blocking, to every channel that asked for it; when no channel asks for
    it the runtime's default applies. *)
Definition offer (sig : nat) (h : gmap nat (list nat)) (ch : nat)
  (slot : option nat) : option nat :=
  match h !! ch with
  | Some sigs =>
      if wants sigs sig then
        match slot with
        | None => Some sig     (* c <- sig *)
        | Some old => Some old (* default: the channel is full, drop *)
        end
      else slot
  | None => slot
  end.

Definition intercepted (sig : nat) (s : state) : bool :=
  bool_decide (map_Exists (λ _ sigs, wants sigs sig = true) (handlers s)).

Definition deliver (sig : nat) (s : state) : state :=
  if intercepted sig s then set_chans (imap (offer sig (handlers s))) s
  else if default_exits sig then set_exited true s
  else s.

(** ** The scheduler: one step of one goroutine

    [None] means the goroutine cannot run: it is blocked, or has exited.
    When both cases of the [select] are ready Go picks one at random; [alt]
    is that choice. *)
Definition run_goroutine (g : nat) (alt : bool) (s : state) : option state :=
  match pool s !! g with
  | Some (Notifier_select c ch) =>
      match chans s !! ch with
      | Some (Some _) =>
          if is_done s c && alt
          then Some (set_pool (<[g := Exited]>) s)
          else Some (set_pool (<[g := Notifier_cancel c]>)
                       (set_chans (<[ch := None]>) s))
      | _ =>
          if is_done s c then Some (set_pool (<[g := Exited]>) s) else None
      end
  | Some (Notifier_cancel c) =>
      Some (set_pool (<[g := Exited]>) (cancel c s))
  | Some (Waiter_recv c f) =>
      match recv_done c s with
      | Ok (_, s') => Some (set_pool (<[g := Waiter_call f]>) s')
      | _ => None
      end
  | Some (Waiter_call f) =>
      Some (set_pool (<[g := Exited]>) (call f s))
  | Some Exited | None => None
  end.

(** A context value the application can hold: the root, or one that was
    really created. *)
Definition valid (s : state) (c : ctx) : bool :=
  match ctx_id c with
  | None => true
  | Some i => bool_decide (ctxs s !! i = Some c)
  end.

(** ** The program *)

Inductive event :=
| EvWithCancel (p : ctx)
    (* the application derives a cancellable context from [p] *)
| EvCancel (c : ctx)
    (* the application cancels a context it derived (or its deadline passes) *)
| EvHandle (p : Context)
    (* the application calls interrupt.Handle(p) *)
| EvSignal (sig : signal)
    (* the operating system delivers a signal to the process *)
| EvRun (g : nat) (alt : bool).
    (* the scheduler runs goroutine [g] for one step *)

Section Deriver.

(** The package variable [Signals]. *)
Variable Signals : list signal.

(** src/interrupt.go, lines 54-61:
<<
    func Handle(ctx context.Context) context.Context {
        ctx, cancel := signal.NotifyContext(ctx, Signals...)
        go func() {
            <-ctx.Done()
            cancel()
        }()
        return ctx
    }
>> *)
Definition Handle (parent : Context) : M Context :=
  r <- NotifyContext parent Signals ;;
  let '(c, cancel) := r in
  go (Waiter_recv c cancel) ;;;
  ret (Some c).

(** The reference implementation of the documentation comment (lines 38-44),
    written out as a state transformer from the comment's words: derive the
    context with [signal.NotifyContext(ctx, interrupt.Signals...)], then
    start a goroutine that waits for the derived context's Done channel and
    then invokes [cancel]. *)
Definition Handle_reference (parent : Context) (s : state)
  : result (Context * state) :=
  match NotifyContext parent Signals s with
  | Panic msg => Panic msg
  | Blocked => Blocked
  | Ok ((derived, cancel), s') =>
      Ok (Some derived,
          set_pool (λ l, l ++ [Waiter_recv derived cancel]) s')
  end.

(** A panic that nobody recovers ends the process; a call that waits has
    not changed anything yet. *)
Definition outcome {A} (s : state) (r : result (A * state)) : state :=
  match r with
  | Ok (_, s') => s'
  | Panic _ => set_exited true s
  | Blocked => s
  end.

(** Events of a process.  [None]: the event cannot happen in this state.
    The application can cancel only contexts it derived itself: [Handle]
    keeps the cancel function of its context to itself. *)
Definition step (e : event) (s : state) : option state :=
  if exited s then None else
  match e with
  | EvWithCancel p =>
      if valid s p then Some (outcome s (WithCancel (Some p) s)) else None
  | EvCancel c =>
      match c with
      | CancelCtx _ _ => if valid s c then Some (cancel c s) else None
      | _ => None
      end
  | EvHandle p =>
      if from_option (valid s) true p
      then Some (outcome s (Handle p s)) else None
  | EvSignal sig => Some (deliver sig s)
  | EvRun g alt => run_goroutine g alt s
  end.

Fixpoint run (es : list event) (s : state) : option state :=
  match es with
  | [] => Some s
  | e :: es' =>
      match step e s with
      | Some s' => run es' s'
      | None => None
      end
  end.

End Deriver.

(** The goroutines started so far: those of the pool, running or ended, and
    the loop goroutine of os/signal. *)
Definition goroutines (s : state) : nat :=
  length (pool s) + (if loop s then 1 else 0).

(** ** The package variable

    [Signals] is a package-level variable ("The [Signals] variable", line
    17), and [Handle] reads it at every call (line 55).  A Go program that
    imports the package can assign to an exported variable; a process is
    therefore the state above together with the current value of the
    variable. *)
Record package := Package {
  var_Signals : list signal;
  proc : state
}.

Inductive action :=
| Assign (sigs : list signal)
    (* the application executes [interrupt.Signals = sigs] *)
| Do (e : event).
    (* an event of the process; a call of [Handle] reads the variable *)

Definition pstep (a : action) (g : package) : option package :=
  match a with
  | Assign sigs =>
      if exited (proc g) then None
      else Some {| var_Signals := sigs; proc := proc g |}
  | Do e =>
      match step (var_Signals g) e (proc g) with
      | Some s' => Some {| var_Signals := var_Signals g; proc := s' |}
      | None => None
      end
  end.

Fixpoint prun (acts : list action) (g : package) : option package :=
  match acts with
  | [] => Some g
  | a :: acts' =>
      match pstep a g with
      | Some g' => prun acts' g'
      | None => None
      end
  end.

(** A fresh process on platform [pf]: the variable holds its initial
    value. *)
Definition start (pf : platform) : package :=
  {| var_Signals := Signals_on pf; proc := init |}.

(** The assignments of a run, and its events. *)
Fixpoint assigns (acts : list action) : nat :=
  match acts with
  | [] => 0
  | Assign _ :: acts' => S (assigns acts')
  | Do _ :: acts' => assigns acts'
  end.

Fixpoint events (acts : list action) : list event :=
  match acts with
  | [] => []
  | Assign _ :: acts' => events acts'
  | Do e :: acts' => e :: events acts'
  end.

(** * Definitions for the proofs *)

(** ** Runs *)

Definition is_run (g : nat) (e : event) : bool :=
  match e with
  | EvRun g' _ => bool_decide (g' = g)
  | _ => false
  end.

(** How often goroutine [g] is scheduled in a run. *)
Fixpoint times_run (g : nat) (es : list event) : nat :=
  match es with
  | [] => 0
  | e :: es' => (if is_run g e then 1 else 0) + times_run g es'
  end.

(** How often [Handle] is called in a run. *)
Fixpoint handle_calls (es : list event) : nat :=
  match es with
  | [] => 0
  | EvHandle _ :: es' => S (handle_calls es')
  | _ :: es' => handle_calls es'
  end.

(** The number of steps of a run at which the registration of channel [ch]
    goes away. *)
Fixpoint removals (sigs : list nat) (ch : nat) (es : list event) (s : state)
  : nat :=
  match es with
  | [] => 0
  | e :: es' =>
      match step sigs e s with
      | Some s' =>
          (if bool_decide (is_Some (handlers s !! ch) ∧ handlers s' !! ch = None)
           then 1 else 0) + removals sigs ch es' s'
      | None => 0
      end
  end.

(** ** States after a call *)

(** The state [withCancel] leaves behind. *)
Definition derive (mk : nat → ctx → ctx) (p : ctx) (s : state) : state :=
  let c := mk (length (ctxs s)) p in
  let s1 := set_ctxs (λ l, l ++ [c]) s in
  if is_done s p then cancel c s1 else s1.

(** [mk] makes a context with the identity and the parent it is given. *)
Definition mk_ok (mk : nat → ctx → ctx) : Prop :=
  ∀ i p, ctx_id (mk i p) = Some i ∧ ctx_parent (mk i p) = Some p.

(** The context a call in state [s] derives. *)
Definition derived (p : ctx) (s : state) : ctx :=
  SignalCtx (length (ctxs s)) (length (chans s)) p.

(** The state [NotifyContext] leaves behind. *)
Definition registration (sigs : list nat) (p : ctx) (s : state) : state :=
  let ch := length (chans s) in
  let s2 := Notify ch sigs
              (derive (λ i q, SignalCtx i ch q) p
                 (set_chans (λ l, l ++ [None]) s)) in
  if is_done s2 (derived p s) then s2
  else set_pool (λ l, l ++ [Notifier_select (derived p s) ch]) s2.

(** The state [Handle] leaves behind. *)
Definition handled (sigs : list nat) (p : ctx) (s : state) : state :=
  set_pool
    (λ l, l ++ [Waiter_recv (derived p s)
                  (StopOf (derived p s) (length (chans s)))])
    (registration sigs p s).

(** The goroutines a call in state [s] starts: the notifier takes the next
    free slot (when the parent is not already done), the waiter the one
    after it. *)
Definition notifier_slot (s : state) : nat := length (pool s).
Definition waiter_slot (p : ctx) (s : state) : nat :=
  length (pool s) + (if is_done s p then 0 else 1).

(** The channel of a signal context. *)
Definition ctx_chan (c : ctx) : option nat :=
  match c with
  | SignalCtx _ ch _ => Some ch
  | _ => None
  end.

(** [x] is [a] or was derived from it. *)
Definition derived_from (a x : ctx) : bool :=
  match ctx_id a with
  | Some i => descends i x
  | None => true
  end.

(** Contexts and channels are never freed, Done channels never reopen. *)
Definition extends (s s' : state) : Prop :=
  (∀ i d, ctxs s !! i = Some d → ctxs s' !! i = Some d) ∧
  length (chans s) ≤ length (chans s') ∧
  closed s ⊆ closed s'.

(** ** The scenarios of the specification

    A fresh process on a unix-like platform calls [Handle] on the root
    context (scenario A); the states it goes through when an interrupt
    arrives. *)

Definition ctxA : ctx := SignalCtx 0 0 Background.
Definition stopA : cancel_func := StopOf ctxA 0.

(** After the call: registered, both goroutines waiting. *)
Definition scenA_called : state :=
  {| ctxs := [ctxA]; closed := ∅; chans := [None];
     handlers := {[0 := Signals_on Unix]};
     pool := [Notifier_select ctxA 0; Waiter_recv ctxA stopA];
     loop := true; exited := false |}.

(** The interrupt was delivered and the notifier has received it. *)
Definition scenA_received : state :=
  {| ctxs := [ctxA]; closed := ∅; chans := [None];
     handlers := {[0 := Signals_on Unix]};
     pool := [Notifier_cancel ctxA; Waiter_recv ctxA stopA];
     loop := true; exited := false |}.

(** The notifier has cancelled the context. *)
Definition scenA_cancelled : state :=
  {| ctxs := [ctxA]; closed := {[0]}; chans := [None];
     handlers := {[0 := Signals_on Unix]};
     pool := [Exited; Waiter_recv ctxA stopA];
     loop := true; exited := false |}.

(** The waiter has removed the registration. *)
Definition scenA_released : state :=
  {| ctxs := [ctxA]; closed := {[0]}; chans := [None];
     handlers := ∅;
     pool := [Exited; Exited];
     loop := true; exited := false |}.

Definition traceA : list event :=
  [EvSignal SIGINT; EvRun 0 false; EvRun 0 false; EvRun 1 false; EvRun 1 false].

(** A second call on the root context, right after the first (scenario D). *)
Definition ctxB : ctx := SignalCtx 1 1 Background.

Definition scenD_called : state :=
  {| ctxs := [ctxA; ctxB]; closed := ∅; chans := [None; None];
     handlers := <[1 := Signals_on Unix]> {[0 := Signals_on Unix]};
     pool := [Notifier_select ctxA 0; Waiter_recv ctxA stopA;
              Notifier_select ctxB 1; Waiter_recv ctxB (StopOf ctxB 1)];
     loop := true; exited := false |}.

(** A call on a parent that was cancelled before (scenario B). *)
Definition parentB : ctx := CancelCtx 0 Background.
Definition ctxB' : ctx := SignalCtx 1 0 parentB.

Definition scenB_cancelled : state :=
  {| ctxs := [parentB]; closed := {[0]}; chans := []; handlers := ∅;
     pool := []; loop := false; exited := false |}.

Definition scenB_called : state :=
  {| ctxs := [parentB; ctxB']; closed := {[0; 1]}; chans := [None];
     handlers := {[0 := Signals_on Unix]};
     pool := [Waiter_recv ctxB' (StopOf ctxB' 0)];
     loop := true; exited := false |}.

(** The application derives a context from the one [Handle] returned. *)
Definition childA : ctx := CancelCtx 1 ctxA.

Definition scenA_child : state :=
  {| ctxs := [ctxA; childA]; closed := ∅; chans := [None];
     handlers := {[0 := Signals_on Unix]};
     pool := [Notifier_select ctxA 0; Waiter_recv ctxA stopA];
     loop := true; exited := false |}.

(** * Well-formed process states *)

(** What a goroutine of this program may be: a notifier or a waiter of a
    signal context that exists, holding that context's [stop]. *)
Definition sig_ctx (s : state) (c : ctx) (ch : nat) : Prop :=
  ∃ i p, c = SignalCtx i ch p ∧ ctxs s !! i = Some c ∧ ch < length (chans s).

Definition goroutine_ok (s : state) (g : goroutine) : Prop :=
  match g with
  | Notifier_select c ch => sig_ctx s c ch
  | Notifier_cancel c => ∃ ch, sig_ctx s c ch
  | Waiter_recv c f => ∃ ch, sig_ctx s c ch ∧ f = StopOf c ch
  | Waiter_call f => ∃ c ch, sig_ctx s c ch ∧ f = StopOf c ch
  | Exited => True
  end.

Record wf (s : state) : Prop := {
  wf_ids : ∀ i c, ctxs s !! i = Some c → ctx_id c = Some i;
  wf_parent : ∀ i c p, ctxs s !! i = Some c → ctx_parent c = Some p →
    valid s p = true ∧ ∀ a, a ∈ chain p → a < i;
  wf_closed : ∀ i, i ∈ closed s → i < length (ctxs s);
  wf_down : ∀ i c a, ctxs s !! i = Some c → a ∈ chain c → a ∈ closed s →
    i ∈ closed s;
  wf_pool : ∀ k g, pool s !! k = Some g → goroutine_ok s g;
  wf_handlers : ∀ ch, is_Some (handlers s !! ch) → ch < length (chans s)
}.

(** The context a cancel function cancels, and the channel it stops. *)
Definition cf_ctx (f : cancel_func) : ctx :=
  match f with CancelOf c | StopOf c _ => c end.
Definition cf_chan (f : cancel_func) : option nat :=
  match f with CancelOf _ => None | StopOf _ ch => Some ch end.

(** Goroutine [g] works on context [i] or on channel [ch]. *)
Definition touches (i ch : nat) (g : goroutine) : Prop :=
  match g with
  | Notifier_select c ch' => ctx_id c = Some i ∨ ch' = ch
  | Notifier_cancel c => ctx_id c = Some i
  | Waiter_recv c f =>
      ctx_id c = Some i ∨ ctx_id (cf_ctx f) = Some i ∨ cf_chan f = Some ch
  | Waiter_call f => ctx_id (cf_ctx f) = Some i ∨ cf_chan f = Some ch
  | Exited => False
  end.

(** * One call of [Handle]: the protocol *)

Section Protocol.

Variable Signals : list nat.

(** The call derived context [i] with channel [ch] from [p]; its notifier
    is goroutine [n] (if it has one), its waiter goroutine [w]. *)
Variables (i ch : nat) (p : ctx) (n w : nat).

Abbreviation c := (SignalCtx i ch p).
Abbreviation stop := (StopOf (SignalCtx i ch p) ch).

(** The protocol between the context, its registration and its two
    goroutines. *)
Record tracks (s : state) : Prop := {
  tr_ctx : ctxs s !! i = Some c;
  tr_chan : ch < length (chans s);
  tr_foreign : ∀ k g, pool s !! k = Some g → k ≠ w → touches i ch g →
    k = n ∧ (g = Notifier_select c ch ∨ g = Notifier_cancel c);
  tr_armed : is_done s c = false →
    pool s !! n = Some (Notifier_select c ch) ∨
    pool s !! n = Some (Notifier_cancel c);
  tr_waiter :
    match pool s !! w with
    | Some (Waiter_recv c' f) =>
        c' = c ∧ f = stop ∧ handlers s !! ch = Some Signals
    | Some (Waiter_call f) =>
        f = stop ∧ handlers s !! ch = Some Signals ∧ is_done s c = true
    | Some Exited => handlers s !! ch = None ∧ is_done s c = true
    | _ => False
    end
}.

(** Before any signal: the derived context is not done, no signal waits in
    its channel, the notifier sits at its [select]. *)
Definition quiet (s : state) : Prop :=
  is_done s c = false ∧ chans s !! ch = Some None ∧
  pool s !! n = Some (Notifier_select c ch).

(** After a signal: the derived context is at most [k] steps of its
    notifier away from being done. *)
Definition lag (k : nat) (s : state) : Prop :=
  is_done s c = true ∨
  (1 ≤ k ∧ pool s !! n = Some (Notifier_cancel c)) ∨
  (2 ≤ k ∧ pool s !! n = Some (Notifier_select c ch) ∧
   ∃ x, chans s !! ch = Some (Some x)).

(** After the context is done: the registration is at most [k] steps of the
    waiter away from being removed. *)
Definition wlag (k : nat) (s : state) : Prop :=
  handlers s !! ch = None ∨
  (1 ≤ k ∧ pool s !! w = Some (Waiter_call stop)) ∨
  (2 ≤ k ∧ pool s !! w = Some (Waiter_recv c stop) ∧ is_done s c = true).

(** The steps the waiter has yet to take before the registration is
    removed. *)
Definition wleft (s : state) : nat :=
  match pool s !! w with
  | Some (Waiter_recv _ _) => 2
  | Some (Waiter_call _) => 1
  | _ => 0
  end.

(** After the context is done: the notifier is at most [k] of its steps
    away from its end. *)
Definition nlag (k : nat) (s : state) : Prop :=
  pool s !! n = Some Exited ∨
  (1 ≤ k ∧ pool s !! n = Some (Notifier_cancel c)) ∨
  (2 ≤ k ∧ pool s !! n = Some (Notifier_select c ch) ∧ is_done s c = true).

End Protocol.

(** * The whole process *)

(** Every registration in the handler table asks for the set [sigs]. *)
Definition only_asks (sigs : list nat) (s : state) : Prop :=
  ∀ ch x, handlers s !! ch = Some x → x = sigs.


(** * Lemmas on the platform operations *)

Lemma elem_of_reached i s j :
  j ∈ reached i s ↔ ∃ d, d ∈ ctxs s ∧ i ∈ chain d ∧ ctx_id d = Some j.
Proof.
  unfold reached. rewrite elem_of_list_to_set, list_elem_of_omap.
  split.
  - intros (d & Hd & Hid). apply list_elem_of_filter in Hd as [Hdesc Hd].
    exists d. split_and!; [done| |done].
    unfold descends in Hdesc. by apply bool_decide_eq_true in Hdesc.
  - intros (d & Hd & Hch & Hid). exists d. split; [|done].
    apply list_elem_of_filter. split; [|done].
    unfold descends. by apply bool_decide_eq_true.
Qed.

Lemma is_done_true s c :
  is_done s c = true ↔ ∃ i, ctx_id c = Some i ∧ i ∈ closed s.
Proof.
  unfold is_done. destruct (ctx_id c) as [i|].
  - rewrite bool_decide_eq_true. naive_solver.
  - naive_solver.
Qed.

Lemma is_done_false s c i :
  ctx_id c = Some i → (is_done s c = false ↔ i ∉ closed s).
Proof.
  intros Hid. unfold is_done. rewrite Hid. apply bool_decide_eq_false.
Qed.

Lemma is_done_eq s c i :
  ctx_id c = Some i → is_done s c = bool_decide (i ∈ closed s).
Proof. unfold is_done. by intros ->. Qed.

Lemma cancel_ctxs c s : ctxs (cancel c s) = ctxs s.
Proof. unfold cancel. destruct (ctx_id c); [destruct (is_done s c)|]; done. Qed.
Lemma cancel_chans c s : chans (cancel c s) = chans s.
Proof. unfold cancel. destruct (ctx_id c); [destruct (is_done s c)|]; done. Qed.
Lemma cancel_handlers c s : handlers (cancel c s) = handlers s.
Proof. unfold cancel. destruct (ctx_id c); [destruct (is_done s c)|]; done. Qed.
Lemma cancel_pool c s : pool (cancel c s) = pool s.
Proof. unfold cancel. destruct (ctx_id c); [destruct (is_done s c)|]; done. Qed.
Lemma cancel_exited c s : exited (cancel c s) = exited s.
Proof. unfold cancel. destruct (ctx_id c); [destruct (is_done s c)|]; done. Qed.

Lemma elem_of_closed_cancel c s j :
  j ∈ closed (cancel c s) ↔
  j ∈ closed s ∨
  ∃ i, ctx_id c = Some i ∧ (i ∉ closed s) ∧ (j = i ∨ j ∈ reached i s).
Proof.
  unfold cancel. destruct (ctx_id c) as [i|] eqn:Hid; [|naive_solver].
  destruct (is_done s c) eqn:Hd.
  - apply is_done_true in Hd as (i' & Hi' & Hd).
    assert (i' = i) as -> by congruence. naive_solver.
  - apply (is_done_false _ _ _ Hid) in Hd. simpl.
    rewrite !elem_of_union, elem_of_singleton. naive_solver.
Qed.

Lemma closed_cancel_mono c s : closed s ⊆ closed (cancel c s).
Proof. intros j Hj. apply elem_of_closed_cancel. by left. Qed.

Lemma is_done_cancel_self c s :
  c ≠ Background → is_done (cancel c s) c = true.
Proof.
  intros Hc. apply is_done_true.
  destruct (ctx_id c) as [i|] eqn:Hid; [|by destruct c].
  exists i. split; [done|]. apply elem_of_closed_cancel.
  destruct (decide (i ∈ closed s)); [by left|]. right. naive_solver.
Qed.

(** ** Contexts in a well-formed state *)

Lemma valid_inv s c :
  valid s c = true →
  c = Background ∨ ∃ i, ctx_id c = Some i ∧ ctxs s !! i = Some c.
Proof.
  unfold valid. destruct (ctx_id c) as [i|] eqn:Hid.
  - rewrite bool_decide_eq_true. naive_solver.
  - destruct c; naive_solver.
Qed.

Lemma valid_lookup s i c :
  ctx_id c = Some i → ctxs s !! i = Some c → valid s c = true.
Proof. intros Hid Hl. unfold valid. rewrite Hid. by apply bool_decide_eq_true. Qed.

Lemma chain_cases c a :
  a ∈ chain c →
  ∃ i p, ctx_id c = Some i ∧ ctx_parent c = Some p ∧ (a = i ∨ a ∈ chain p).
Proof.
  destruct c as [|i p|i ch p]; simpl; [by intros ?%elem_of_nil|..];
    rewrite elem_of_cons; naive_solver.
Qed.

Lemma chain_self c i : ctx_id c = Some i → i ∈ chain c.
Proof. destruct c; simpl; [done|..]; intros [= ->]; apply elem_of_cons; auto. Qed.

Lemma chain_parent c p a : ctx_parent c = Some p → a ∈ chain p → a ∈ chain c.
Proof. destruct c; simpl; [done|..]; intros [= ->] ?; apply elem_of_cons; auto. Qed.

Lemma chain_nonempty_valid s p a :
  valid s p = true → a ∈ chain p →
  ∃ j, ctx_id p = Some j ∧ ctxs s !! j = Some p.
Proof.
  intros [->|Hv]%valid_inv Ha; [by apply elem_of_nil in Ha|done].
Qed.

Lemma chain_le s i c a :
  wf s → ctxs s !! i = Some c → a ∈ chain c → a ≤ i.
Proof.
  intros Hwf Hl Ha.
  destruct (chain_cases _ _ Ha) as (i' & p & Hid & Hp & [->|Hin]).
  - rewrite (wf_ids _ Hwf _ _ Hl) in Hid. injection Hid as ->. lia.
  - destruct (wf_parent _ Hwf _ _ _ Hl Hp) as [_ Hlt].
    specialize (Hlt _ Hin). lia.
Qed.

Lemma chain_lt_length s i c a :
  wf s → ctxs s !! i = Some c → a ∈ chain c → a < length (ctxs s).
Proof.
  intros Hwf Hl Ha. pose proof (chain_le _ _ _ _ Hwf Hl Ha).
  apply lookup_lt_Some in Hl. lia.
Qed.

(** The ancestors of an ancestor are ancestors. *)
Lemma chain_sub s :
  wf s → ∀ d j a e,
  ctxs s !! j = Some d → a ∈ chain d → ctxs s !! a = Some e →
  chain e ⊆ chain d.
Proof.
  intros Hwf d. induction d as [|i p IH|i ch p IH]; intros j a e Hl Ha He.
  - by apply elem_of_nil in Ha.
  - pose proof (wf_ids _ Hwf _ _ Hl) as [= ->].
    simpl in Ha. apply elem_of_cons in Ha as [->|Ha].
    + rewrite Hl in He. by injection He as <-.
    + destruct (wf_parent _ Hwf _ _ p Hl eq_refl) as [Hv _].
      destruct (chain_nonempty_valid _ _ _ Hv Ha) as (j' & _ & Hl').
      intros x Hx. simpl. apply elem_of_cons. right.
      by apply (IH j' a e).
  - pose proof (wf_ids _ Hwf _ _ Hl) as [= ->].
    simpl in Ha. apply elem_of_cons in Ha as [->|Ha].
    + rewrite Hl in He. by injection He as <-.
    + destruct (wf_parent _ Hwf _ _ p Hl eq_refl) as [Hv _].
      destruct (chain_nonempty_valid _ _ _ Hv Ha) as (j' & _ & Hl').
      intros x Hx. simpl. apply elem_of_cons. right.
      by apply (IH j' a e).
Qed.

(** In a well-formed state [reached] is what its name says. *)
Lemma elem_of_reached_wf s i j :
  wf s →
  j ∈ reached i s ↔ ∃ d, ctxs s !! j = Some d ∧ i ∈ chain d.
Proof.
  intros Hwf. rewrite elem_of_reached. split.
  - intros (d & Hd & Hi & Hid). exists d. split; [|done].
    apply list_elem_of_lookup in Hd as [k Hk].
    pose proof (wf_ids _ Hwf _ _ Hk). by simplify_eq.
  - intros (d & Hl & Hi). exists d. split_and!; [|done|].
    + apply list_elem_of_lookup. eauto.
    + by apply (wf_ids _ Hwf).
Qed.

(** P1 at the level of the store: a context whose ancestor is done is done. *)
Lemma is_done_ancestor s c p :
  wf s → valid s c = true → ctx_parent c = Some p →
  is_done s p = true → is_done s c = true.
Proof.
  intros Hwf Hv Hp Hd.
  destruct (valid_inv _ _ Hv) as [->|(i & Hid & Hl)]; [done|].
  apply is_done_true in Hd as (j & Hj & Hjc).
  apply is_done_true. exists i. split; [done|].
  apply (wf_down _ Hwf i c j); [done| |done].
  eapply chain_parent; [done|]. by apply chain_self.
Qed.

(** ** Well-formedness is preserved by the platform operations *)

Lemma sig_ctx_mono s s' c ch :
  (∀ i d, ctxs s !! i = Some d → ctxs s' !! i = Some d) →
  length (chans s) ≤ length (chans s') →
  sig_ctx s c ch → sig_ctx s' c ch.
Proof.
  intros Hc Hch (i & p & -> & Hl & Hlt). exists i, p.
  split_and!; [done|by apply Hc|lia].
Qed.

Lemma goroutine_ok_mono s s' g :
  (∀ i d, ctxs s !! i = Some d → ctxs s' !! i = Some d) →
  length (chans s) ≤ length (chans s') →
  goroutine_ok s g → goroutine_ok s' g.
Proof.
  intros Hc Hch. destruct g; simpl; [| | | |done].
  - by apply sig_ctx_mono.
  - intros [ch' H]. exists ch'. by eapply sig_ctx_mono.
  - intros (ch' & H & ->). exists ch'. split; [by eapply sig_ctx_mono|done].
  - intros (c' & ch' & H & ->). exists c', ch'.
    split; [by eapply sig_ctx_mono|done].
Qed.

Lemma wf_init : wf init.
Proof. split; simpl; try done; by intros ? [? ?]. Qed.

Lemma wf_cancel c s : wf s → valid s c = true → wf (cancel c s).
Proof.
  intros Hwf Hv. split; rewrite ?cancel_ctxs, ?cancel_chans, ?cancel_pool,
    ?cancel_handlers; try by apply Hwf.
  - intros i d p Hl Hp. destruct (wf_parent _ Hwf _ _ _ Hl Hp) as [Hvp Hlt].
    split; [|done]. unfold valid in *. by rewrite cancel_ctxs.
  - intros j [Hj|(i & Hid & Hni & [->|Hj])]%elem_of_closed_cancel.
    + by apply Hwf.
    + destruct (valid_inv _ _ Hv) as [->|(i' & Hid' & Hl)]; [done|].
      simplify_eq. by apply lookup_lt_Some in Hl.
    + apply (elem_of_reached_wf _ _ _ Hwf) in Hj as (d & Hl & _).
      by apply lookup_lt_Some in Hl.
  - intros j d a Hl Ha Hcl.
    apply elem_of_closed_cancel in Hcl as [Hcl|(i & Hid & Hni & Hcl)].
    { apply closed_cancel_mono. by apply (wf_down _ Hwf j d a). }
    apply elem_of_closed_cancel. right. exists i. split_and!; [done..|].
    right. apply (elem_of_reached_wf _ _ _ Hwf). exists d. split; [done|].
    destruct Hcl as [->|Hcl]; [done|].
    apply (elem_of_reached_wf _ _ _ Hwf) in Hcl as (e & He & Hie).
    by apply (chain_sub _ Hwf d j a e).
  - intros k g Hk. eapply goroutine_ok_mono; [| |by apply (wf_pool _ Hwf k)].
    + by rewrite cancel_ctxs.
    + by rewrite cancel_chans.
Qed.

Lemma wf_set_exited b s : wf s → wf (set_exited b s).
Proof. intros Hwf. split; by apply Hwf. Qed.

Lemma wf_Stop ch s : wf s → wf (Stop ch s).
Proof.
  intros Hwf. split; try by apply Hwf.
  simpl. intros ch' [x Hx]. apply lookup_delete_Some in Hx as [_ Hx].
  apply (wf_handlers _ Hwf). eauto.
Qed.

Lemma wf_Notify ch sigs s : wf s → ch < length (chans s) → wf (Notify ch sigs s).
Proof.
  intros Hwf Hlt. split; try by apply Hwf.
  simpl. intros ch' [x Hx]. apply lookup_insert_Some in Hx as [[<- _]|[_ Hx]].
  - done.
  - apply (wf_handlers _ Hwf). eauto.
Qed.

Lemma wf_set_chans f s :
  wf s → (∀ l, length l ≤ length (f l)) → wf (set_chans f s).
Proof.
  intros Hwf Hf. split; try by apply Hwf.
  - intros k g Hk. eapply goroutine_ok_mono; [| |by apply (wf_pool _ Hwf k)].
    + done.
    + simpl. apply Hf.
  - simpl. intros ch Hch. apply (wf_handlers _ Hwf) in Hch.
    pose proof (Hf (chans s)). lia.
Qed.

Lemma wf_go g s : wf s → goroutine_ok s g → wf (set_pool (λ l, l ++ [g]) s).
Proof.
  intros Hwf Hg. split; try by apply Hwf.
  simpl. intros k g' [[_ Hk]|[_ <-]]%lookup_snoc_Some.
  - by apply (wf_pool _ Hwf k).
  - done.
Qed.

Lemma wf_set_goroutine k g s :
  wf s → goroutine_ok s g → wf (set_pool (<[k := g]>) s).
Proof.
  intros Hwf Hg. split; try by apply Hwf.
  simpl. intros k' g' Hk'.
  apply list_lookup_insert_Some in Hk' as [(-> & <- & _)|[_ Hk']].
  - done.
  - by apply (wf_pool _ Hwf k').
Qed.

(** ** Deriving a context *)

Lemma withCancel_Some mk p s :
  withCancel mk (Some p) s = Ok (mk (length (ctxs s)) p, derive mk p s).
Proof.
  unfold withCancel, derive, bind, gets, modify, ret. simpl.
  change (is_done (set_ctxs _ s) p) with (is_done s p).
  by destruct (is_done s p).
Qed.

Lemma mk_ok_CancelCtx : mk_ok CancelCtx.
Proof. done. Qed.
Lemma mk_ok_SignalCtx ch : mk_ok (λ i p, SignalCtx i ch p).
Proof. done. Qed.

Lemma derive_ctxs mk p s :
  ctxs (derive mk p s) = ctxs s ++ [mk (length (ctxs s)) p].
Proof. unfold derive. destruct (is_done s p); [by rewrite cancel_ctxs|done]. Qed.
Lemma derive_chans mk p s : chans (derive mk p s) = chans s.
Proof. unfold derive. destruct (is_done s p); [by rewrite cancel_chans|done]. Qed.
Lemma derive_handlers mk p s : handlers (derive mk p s) = handlers s.
Proof. unfold derive. destruct (is_done s p); [by rewrite cancel_handlers|done]. Qed.
Lemma derive_pool mk p s : pool (derive mk p s) = pool s.
Proof. unfold derive. destruct (is_done s p); [by rewrite cancel_pool|done]. Qed.
Lemma derive_exited mk p s : exited (derive mk p s) = exited s.
Proof. unfold derive. destruct (is_done s p); [by rewrite cancel_exited|done]. Qed.

(** A new context has no descendants yet: [cancel] closes it alone. *)
Lemma derive_closed mk p s :
  mk_ok mk → wf s →
  closed (derive mk p s) =
  if is_done s p then closed s ∪ {[length (ctxs s)]} else closed s.
Proof.
  intros Hmk Hwf. unfold derive. destruct (is_done s p); [|done].
  set (n := length (ctxs s)). set (c := mk n p).
  destruct (Hmk n p) as [Hid Hp]. fold c in Hid, Hp.
  set (s1 := set_ctxs _ s).
  apply set_eq. intros j. rewrite elem_of_closed_cancel.
  rewrite elem_of_union, elem_of_singleton. split.
  - intros [Hj|(i & Hi & _ & [->|Hj])]; [by left| |].
    + right. congruence.
    + assert (i = n) as -> by congruence. right.
      apply elem_of_reached in Hj as (d & Hd & Hn & Hdj).
      simpl in Hd. apply elem_of_app in Hd as [Hd|Hd].
      * apply list_elem_of_lookup in Hd as [k Hk].
        pose proof (chain_lt_length _ _ _ _ Hwf Hk Hn). unfold n in *. lia.
      * apply list_elem_of_singleton in Hd as ->. congruence.
  - intros [Hj| ->]; [by left|]. right. exists n. split_and!; [done| |by left].
    intros Hn. apply (wf_closed _ Hwf) in Hn. unfold n in Hn. lia.
Qed.

Lemma valid_mono s s' c :
  (∀ i d, ctxs s !! i = Some d → ctxs s' !! i = Some d) →
  valid s c = true → valid s' c = true.
Proof.
  intros Hc. unfold valid. destruct (ctx_id c); [|done].
  rewrite !bool_decide_eq_true. apply Hc.
Qed.

Lemma wf_derive mk p s :
  mk_ok mk → wf s → valid s p = true → wf (derive mk p s).
Proof.
  intros Hmk Hwf Hv.
  set (n := length (ctxs s)).
  destruct (Hmk n p) as [Hid Hp].
  assert (Hold : ∀ i d, ctxs s !! i = Some d → ctxs (derive mk p s) !! i = Some d).
  { intros i d Hl. rewrite derive_ctxs. by apply lookup_app_l_Some. }
  assert (Hbound : ∀ a, a ∈ chain p → a < n).
  { intros a Ha. destruct (chain_nonempty_valid _ _ _ Hv Ha) as (j & _ & Hj).
    by apply (chain_lt_length _ _ _ _ Hwf Hj). }
  split.
  - intros i c. rewrite derive_ctxs.
    intros [[_ Hl]|[-> <-]]%lookup_snoc_Some; [by apply Hwf|done].
  - intros i c q. rewrite derive_ctxs.
    intros [[_ Hl]|[-> <-]]%lookup_snoc_Some Hq.
    + destruct (wf_parent _ Hwf _ _ _ Hl Hq) as [Hvq Hlt].
      split; [by eapply valid_mono|done].
    + fold n in Hq. assert (q = p) as -> by congruence.
      split; [by eapply valid_mono|done].
  - intros i. rewrite derive_closed, derive_ctxs, length_app by done. simpl.
    destruct (is_done s p).
    + intros [Hi| ->%elem_of_singleton]%elem_of_union; [|lia].
      apply (wf_closed _ Hwf) in Hi. lia.
    + intros Hi%(wf_closed _ Hwf). lia.
  - intros i c a. rewrite derive_ctxs, derive_closed by done.
    intros [[Hlt Hl]|[-> <-]]%lookup_snoc_Some Ha Hcl.
    + assert (a ∈ closed s) as Hcl'.
      { destruct (is_done s p); [|done].
        apply elem_of_union in Hcl as [|Heq%elem_of_singleton]; [done|].
        pose proof (chain_le _ _ _ _ Hwf Hl Ha). lia. }
      pose proof (wf_down _ Hwf _ _ _ Hl Ha Hcl').
      destruct (is_done s p); set_solver.
    + fold n in Ha. destruct (is_done s p) eqn:Hd; [set_solver|].
      exfalso.
      destruct (chain_cases _ _ Ha) as (i & q & Hi & Hq & [->|Hin]).
      * assert (i = n) as -> by congruence.
        apply (wf_closed _ Hwf) in Hcl. unfold n in Hcl. lia.
      * assert (q = p) as -> by congruence.
        destruct (chain_nonempty_valid _ _ _ Hv Hin) as (j & Hj & Hlj).
        apply (is_done_false _ _ _ Hj) in Hd. apply Hd.
        by apply (wf_down _ Hwf j p a).
  - intros k g. rewrite derive_pool. intros Hk.
    eapply goroutine_ok_mono; [done| |by apply (wf_pool _ Hwf k)].
    by rewrite derive_chans.
  - rewrite derive_handlers, derive_chans. by apply Hwf.
Qed.

(** The derived context is done on return exactly when its parent is. *)
Lemma is_done_derive_new mk p s :
  mk_ok mk → wf s →
  is_done (derive mk p s) (mk (length (ctxs s)) p) = is_done s p.
Proof.
  intros Hmk Hwf. destruct (Hmk (length (ctxs s)) p) as [Hid _].
  unfold is_done at 1. rewrite Hid, derive_closed by done.
  destruct (is_done s p).
  - apply bool_decide_eq_true. set_solver.
  - apply bool_decide_eq_false. intros H%(wf_closed _ Hwf). lia.
Qed.

Lemma is_done_derive_old mk p s d :
  mk_ok mk → wf s → valid s d = true →
  is_done (derive mk p s) d = is_done s d.
Proof.
  intros Hmk Hwf Hv. destruct (valid_inv _ _ Hv) as [->|(i & Hid & Hl)]; [done|].
  unfold is_done. rewrite Hid, derive_closed by done.
  apply lookup_lt_Some in Hl.
  destruct (is_done s p); [|done].
  apply bool_decide_ext. rewrite elem_of_union, elem_of_singleton.
  split; [intros [?| ->]; [done|lia]|by left].
Qed.

(** ** What [NotifyContext] and [Handle] compute *)

Lemma NotifyContext_None sigs s :
  NotifyContext None sigs s = Panic "cannot create context from nil parent".
Proof. done. Qed.

Lemma NotifyContext_Some sigs p s :
  NotifyContext (Some p) sigs s =
  Ok ((derived p s, StopOf (derived p s) (length (chans s))),
      registration sigs p s).
Proof.
  cbv [NotifyContext make_chan withCancel bind gets modify go ret
       registration derived derive]. simpl.
  change (is_done (set_ctxs ?f ?s') p) with (is_done s' p).
  change (is_done (set_chans ?f s) p) with (is_done s p).
  destruct (is_done s p); simpl; by destruct (is_done _ _).
Qed.

Lemma Handle_None sigs s :
  Handle sigs None s = Panic "cannot create context from nil parent".
Proof. done. Qed.

Lemma Handle_Some sigs p s :
  Handle sigs (Some p) s = Ok (Some (derived p s), handled sigs p s).
Proof. unfold Handle, bind. by rewrite NotifyContext_Some. Qed.

(** The fields of the state after [Handle], in a well-formed state. *)
Lemma handled_ctxs sigs p s :
  ctxs (handled sigs p s) = ctxs s ++ [derived p s].
Proof.
  unfold handled, registration. simpl.
  destruct (is_done _ _); simpl; by rewrite derive_ctxs.
Qed.

Lemma handled_chans sigs p s :
  chans (handled sigs p s) = chans s ++ [None].
Proof.
  unfold handled, registration. simpl.
  destruct (is_done _ _); simpl; by rewrite derive_chans.
Qed.

Lemma handled_handlers sigs p s :
  handlers (handled sigs p s) = <[length (chans s) := sigs]> (handlers s).
Proof.
  unfold handled, registration. simpl.
  destruct (is_done _ _); simpl; by rewrite derive_handlers.
Qed.

Lemma handled_exited sigs p s : exited (handled sigs p s) = exited s.
Proof.
  unfold handled, registration. simpl.
  destruct (is_done _ _); simpl; by rewrite derive_exited.
Qed.

Lemma handled_closed sigs p s :
  wf s →
  closed (handled sigs p s) =
  if is_done s p then closed s ∪ {[length (ctxs s)]} else closed s.
Proof.
  intros Hwf. unfold handled, registration. simpl.
  assert (wf (set_chans (λ l, l ++ [None]) s)) as Hwf'.
  { apply wf_set_chans; [done|]. intros l. rewrite length_app. lia. }
  destruct (is_done _ _); simpl;
    by rewrite (derive_closed _ _ _ (mk_ok_SignalCtx _) Hwf').
Qed.

Lemma handled_pool sigs p s :
  wf s →
  pool (handled sigs p s) =
  pool s ++ (if is_done s p then [] else [Notifier_select (derived p s) (length (chans s))])
         ++ [Waiter_recv (derived p s) (StopOf (derived p s) (length (chans s)))].
Proof.
  intros Hwf. unfold handled, registration. simpl.
  assert (wf (set_chans (λ l, l ++ [None]) s)) as Hwf'.
  { apply wf_set_chans; [done|]. intros l. rewrite length_app. lia. }
  set (ch := length (chans s)).
  assert (is_done (Notify ch sigs (derive (λ i q, SignalCtx i ch q) p
            (set_chans (λ l, l ++ [None]) s))) (derived p s) = is_done s p) as ->.
  { change (is_done (Notify ?a ?b ?s') ?c) with (is_done s' c).
    apply (is_done_derive_new (λ i q, SignalCtx i ch q) p _ (mk_ok_SignalCtx ch) Hwf'). }
  destruct (is_done s p); simpl; rewrite derive_pool; simpl; [done|].
  by rewrite <-app_assoc.
Qed.

Lemma is_done_handled_new sigs p s :
  wf s → is_done (handled sigs p s) (derived p s) = is_done s p.
Proof.
  intros Hwf.
  rewrite (is_done_eq _ (derived p s) (length (ctxs s))) by done.
  rewrite handled_closed by done.
  destruct (is_done s p).
  - apply bool_decide_eq_true. set_solver.
  - apply bool_decide_eq_false. intros H%(wf_closed _ Hwf). lia.
Qed.

Lemma is_done_handled_old sigs p s d :
  wf s → valid s d = true → is_done (handled sigs p s) d = is_done s d.
Proof.
  intros Hwf Hv. destruct (valid_inv _ _ Hv) as [->|(i & Hid & Hl)]; [done|].
  unfold is_done. rewrite Hid, handled_closed by done.
  apply lookup_lt_Some in Hl.
  destruct (is_done s p); [|done].
  apply bool_decide_ext. rewrite elem_of_union, elem_of_singleton.
  split; [intros [?| ->]; [done|lia]|by left].
Qed.

Lemma wf_handled sigs p s :
  wf s → valid s p = true → wf (handled sigs p s).
Proof.
  intros Hwf Hv.
  set (ch := length (chans s)).
  assert (wf (set_chans (λ l, l ++ [None]) s)) as Hwf0.
  { apply wf_set_chans; [done|]. intros l. rewrite length_app. lia. }
  assert (wf (Notify ch sigs (derive (λ i q, SignalCtx i ch q) p
            (set_chans (λ l, l ++ [None]) s)))) as Hwf2.
  { apply wf_Notify.
    - apply wf_derive; [apply mk_ok_SignalCtx|done|done].
    - rewrite derive_chans. simpl. rewrite length_app. simpl. lia. }
  assert (∀ s', ctxs s' = ctxs s ++ [derived p s] →
                chans s' = chans s ++ [None] →
                sig_ctx s' (derived p s) ch) as Hsig.
  { intros s' Hc Hch. exists (length (ctxs s)), p. split_and!; [done| |].
    - rewrite Hc. by apply list_lookup_middle.
    - rewrite Hch, length_app. simpl. lia. }
  unfold handled, registration. fold ch.
  destruct (is_done _ _).
  - apply wf_go; [done|]. exists ch. split; [|done].
    apply Hsig; simpl; by rewrite ?derive_ctxs, ?derive_chans.
  - apply wf_go; [apply wf_go; [done|]|].
    + apply Hsig; simpl; by rewrite ?derive_ctxs, ?derive_chans.
    + exists ch. split; [|done].
      apply Hsig; simpl; by rewrite ?derive_ctxs, ?derive_chans.
Qed.

(** ** Well-formedness is an invariant of the process *)

Lemma wf_deliver sig s : wf s → wf (deliver sig s).
Proof.
  intros Hwf. unfold deliver. destruct (intercepted sig s).
  - apply wf_set_chans; [done|]. intros l. by rewrite length_imap.
  - destruct (default_exits sig); [by apply wf_set_exited|done].
Qed.

Lemma sig_ctx_valid s c ch : sig_ctx s c ch → valid s c = true.
Proof. intros (i & p & -> & Hl & _). by apply (valid_lookup _ i). Qed.

Lemma wf_call f s : wf s → goroutine_ok s (Waiter_call f) → wf (call f s).
Proof.
  intros Hwf (c & ch & Hsig & ->). simpl.
  apply wf_Stop, wf_cancel; [done|by eapply sig_ctx_valid].
Qed.

Lemma wf_run_goroutine g alt s s' :
  wf s → run_goroutine g alt s = Some s' → wf s'.
Proof.
  intros Hwf. unfold run_goroutine, recv_done.
  destruct (pool s !! g) as [[c ch|c|c f|f|]|] eqn:Hg; [| | | |done|done];
    pose proof (wf_pool _ Hwf _ _ Hg) as Hok.
  - assert (wf (set_pool (<[g:=Exited]>) s)) by by apply wf_set_goroutine.
    assert (wf (set_pool (<[g:=Notifier_cancel c]>)
                  (set_chans (<[ch:=None]>) s))).
    { apply wf_set_goroutine.
      - apply wf_set_chans; [done|]. intros l. by rewrite length_insert.
      - exists ch. eapply sig_ctx_mono; [| |exact Hok]; [done|].
        simpl. by rewrite length_insert. }
    destruct (chans s !! ch) as [[x|]|]; repeat case_match; naive_solver.
  - intros [= <-]. destruct Hok as [ch Hsig].
    apply wf_set_goroutine; [|done].
    apply wf_cancel; [done|by eapply sig_ctx_valid].
  - destruct (is_done s c); [|done]. intros [= <-].
    apply wf_set_goroutine; [done|].
    destruct Hok as (ch & Hsig & ->). by exists c, ch.
  - intros [= <-]. apply wf_set_goroutine; [|done]. by apply wf_call.
Qed.

Lemma wf_step sigs e s s' : wf s → step sigs e s = Some s' → wf s'.
Proof.
  intros Hwf. unfold step. destruct (exited s); [done|].
  destruct e as [p|c|[p|]|sig|g alt].
  - destruct (valid s p) eqn:Hv; [|done]. intros [= <-].
    unfold WithCancel, bind. rewrite withCancel_Some. simpl.
    by apply wf_derive.
  - destruct c; [done| |done].
    destruct (valid s _) eqn:Hv; [|done]. intros [= <-]. by apply wf_cancel.
  - simpl. destruct (valid s p) eqn:Hv; [|done]. intros [= <-].
    rewrite Handle_Some. simpl. by apply wf_handled.
  - simpl. intros [= <-]. by apply wf_set_exited.
  - intros [= <-]. by apply wf_deliver.
  - by apply wf_run_goroutine.
Qed.

Lemma wf_run sigs es s s' : wf s → run sigs es s = Some s' → wf s'.
Proof.
  revert s. induction es as [|e es IH]; simpl; intros s Hwf.
  - by intros [= <-].
  - destruct (step sigs e s) as [s1|] eqn:Hs; [|done].
    intros Hr. eapply IH; [|done]. by eapply wf_step.
Qed.

(** ** What one step does *)

Lemma run_goroutine_inv g alt s s' :
  run_goroutine g alt s = Some s' →
  match pool s !! g with
  | Some (Notifier_select c ch) =>
      (is_done s c = true ∧ s' = set_pool (<[g := Exited]>) s) ∨
      (∃ x, chans s !! ch = Some (Some x) ∧
            s' = set_pool (<[g := Notifier_cancel c]>)
                   (set_chans (<[ch := None]>) s))
  | Some (Notifier_cancel c) => s' = set_pool (<[g := Exited]>) (cancel c s)
  | Some (Waiter_recv c f) =>
      is_done s c = true ∧ s' = set_pool (<[g := Waiter_call f]>) s
  | Some (Waiter_call f) => s' = set_pool (<[g := Exited]>) (call f s)
  | Some Exited | None => False
  end.
Proof.
  unfold run_goroutine, recv_done.
  destruct (pool s !! g) as [[c ch|c|c f|f|]|]; [| | | |done|done].
  - destruct (chans s !! ch) as [[x|]|]; destruct (is_done s c), alt; simpl;
      intros [= <-]; eauto.
  - by intros [= <-].
  - destruct (is_done s c); [|done]. by intros [= <-].
  - by intros [= <-].
Qed.

Lemma step_inv sigs e s s' :
  step sigs e s = Some s' →
  exited s = false ∧
  match e with
  | EvWithCancel p => valid s p = true ∧ s' = derive CancelCtx p s
  | EvCancel c =>
      (∃ i q, c = CancelCtx i q) ∧ valid s c = true ∧ s' = cancel c s
  | EvHandle None => s' = set_exited true s
  | EvHandle (Some p) => valid s p = true ∧ s' = handled sigs p s
  | EvSignal sig => s' = deliver sig s
  | EvRun g alt => run_goroutine g alt s = Some s'
  end.
Proof.
  unfold step. destruct (exited s); [done|].
  intros H. split; [done|]. revert H.
  destruct e as [p|c|[p|]|sig|g alt].
  - destruct (valid s p); [|done]. intros [= <-].
    unfold WithCancel, bind. by rewrite withCancel_Some.
  - destruct c; [done| |done].
    destruct (valid s _); [|done]. intros [= <-]. eauto.
  - simpl in *. destruct (valid s p); [|done]. intros [= <-].
    by rewrite Handle_Some.
  - by intros [= <-].
  - by intros [= <-].
  - done.
Qed.

(** ** Nothing is ever taken back *)

Lemma extends_refl s : extends s s.
Proof. by split_and!. Qed.

Lemma extends_trans s1 s2 s3 : extends s1 s2 → extends s2 s3 → extends s1 s3.
Proof.
  intros (H1 & H2 & H3) (G1 & G2 & G3). split_and!; [naive_solver|lia|set_solver].
Qed.

Lemma extends_cancel c s : extends s (cancel c s).
Proof.
  split_and!; rewrite ?cancel_ctxs, ?cancel_chans;
    [done..|apply closed_cancel_mono].
Qed.

Lemma extends_derive mk p s : extends s (derive mk p s).
Proof.
  split_and!.
  - intros i d Hl. rewrite derive_ctxs. by apply lookup_app_l_Some.
  - by rewrite derive_chans.
  - unfold derive. destruct (is_done s p); [|done].
    etrans; [|apply closed_cancel_mono]. done.
Qed.

Lemma extends_handled sigs p s : extends s (handled sigs p s).
Proof.
  split_and!.
  - intros i d Hl. rewrite handled_ctxs. by apply lookup_app_l_Some.
  - rewrite handled_chans, length_app. lia.
  - unfold handled, registration. simpl.
    pose proof (extends_derive (λ i q, SignalCtx i (length (chans s)) q) p
                  (set_chans (λ l, l ++ [None]) s)) as (_ & _ & H).
    by destruct (is_done _ _).
Qed.

Lemma extends_deliver sig s : extends s (deliver sig s).
Proof.
  unfold deliver. destruct (intercepted sig s).
  - split_and!; simpl; [done|by rewrite length_imap|done].
  - destruct (default_exits sig); by split_and!.
Qed.

Lemma extends_set_pool f s s' : extends s s' → extends s (set_pool f s').
Proof. done. Qed.

Lemma extends_set_handlers f s s' :
  extends s s' → extends s (set_handlers f s').
Proof. done. Qed.

Lemma extends_call f s : extends s (call f s).
Proof.
  destruct f; simpl; [|apply extends_set_handlers]; apply extends_cancel.
Qed.

Lemma extends_run_goroutine g alt s s' :
  run_goroutine g alt s = Some s' → extends s s'.
Proof.
  intros H%run_goroutine_inv.
  destruct (pool s !! g) as [[c ch|c|c f|f|]|]; [| | | |done|done].
  - destruct H as [[_ ->]|(x & _ & ->)]; [by split_and!|].
    split_and!; simpl; [done|by rewrite length_insert|done].
  - subst. apply extends_set_pool, extends_cancel.
  - destruct H as [_ ->]. by split_and!.
  - subst. apply extends_set_pool, extends_call.
Qed.

Lemma extends_step sigs e s s' : step sigs e s = Some s' → extends s s'.
Proof.
  intros [_ H]%step_inv. destruct e as [p|c|[p|]|sig|g alt].
  - destruct H as [_ ->]. apply extends_derive.
  - destruct H as (_ & _ & ->). apply extends_cancel.
  - destruct H as [_ ->]. apply extends_handled.
  - subst. by split_and!.
  - subst. apply extends_deliver.
  - by eapply extends_run_goroutine.
Qed.

Lemma extends_run sigs es s s' : run sigs es s = Some s' → extends s s'.
Proof.
  revert s. induction es as [|e es IH]; simpl; intros s.
  - intros [= <-]. apply extends_refl.
  - destruct (step sigs e s) as [s1|] eqn:Hs; [|done]. intros Hr.
    eapply extends_trans; [by eapply extends_step|by apply IH].
Qed.

Lemma extends_done s s' c : extends s s' → is_done s c = true → is_done s' c = true.
Proof.
  intros (_ & _ & H). rewrite !is_done_true. intros (i & Hi & Hc). eauto.
Qed.

Lemma extends_valid s s' c : extends s s' → valid s c = true → valid s' c = true.
Proof. intros (H & _ & _). by apply valid_mono. Qed.

(** ** Cancellation goes down, never up or sideways *)

(** [cancel d] changes the state of the descendants of [d], and of nothing
    else. *)
Lemma is_done_cancel_frame s d j x :
  wf s → ctx_id d = Some j → valid s x = true → descends j x = false →
  is_done (cancel d s) x = is_done s x.
Proof.
  intros Hwf Hj Hv Hnd.
  destruct (valid_inv _ _ Hv) as [->|(k & Hk & Hl)]; [done|].
  rewrite !(is_done_eq _ x k) by done. apply bool_decide_ext.
  rewrite elem_of_closed_cancel. split; [|by left].
  intros [?|(j' & Hj' & _ & Hin)]; [done|]. exfalso.
  assert (j' = j) as -> by congruence.
  apply bool_decide_eq_false in Hnd. apply Hnd.
  destruct Hin as [->|Hin]; [by apply chain_self|].
  apply (elem_of_reached_wf _ _ _ Hwf) in Hin as (x' & Hx' & Hjx).
  by simplify_eq.
Qed.

(** [cancel d] reaches all the descendants of [d]. *)
Lemma is_done_cancel_reach s d j x :
  wf s → ctx_id d = Some j → valid s x = true → descends j x = true →
  is_done (cancel d s) x = true.
Proof.
  intros Hwf Hj Hv Hd. apply bool_decide_eq_true in Hd.
  destruct (chain_nonempty_valid _ _ _ Hv Hd) as (k & Hk & Hl).
  apply is_done_true. exists k. split; [done|].
  apply elem_of_closed_cancel.
  destruct (decide (j ∈ closed s)) as [Hc|Hc].
  - left. by apply (wf_down _ Hwf k x j).
  - right. exists j. split_and!; [done..|]. right.
    apply (elem_of_reached_wf _ _ _ Hwf). eauto.
Qed.

(** When cancelling another context finishes [x], it has finished the
    parent of [x] too. *)
Lemma cancel_flip s d x q :
  wf s → valid s x = true → ctx_parent x = Some q →
  ctx_id d ≠ ctx_id x →
  is_done s x = false → is_done (cancel d s) x = true →
  is_done (cancel d s) q = true.
Proof.
  intros Hwf Hv Hq Hne Hnd Hd.
  destruct (ctx_id d) as [j|] eqn:Hj; [|unfold cancel in Hd; rewrite Hj in Hd; congruence].
  destruct (descends j x) eqn:Hdesc.
  - apply bool_decide_eq_true in Hdesc.
    destruct (chain_cases _ _ Hdesc) as (k & q' & Hk & Hq' & [->|Hin]);
      [congruence|].
    assert (q' = q) as -> by congruence.
    destruct (valid_inv _ _ Hv) as [->|(k' & Hk' & Hl)]; [done|].
    destruct (wf_parent _ Hwf _ _ _ Hl Hq) as [Hvq _].
    apply (is_done_cancel_reach s d j); [done..|].
    by apply bool_decide_eq_true.
  - rewrite (is_done_cancel_frame s d j x) in Hd by done. congruence.
Qed.

(** ** Frame lemmas for steps *)

Lemma deliver_closed sig s : closed (deliver sig s) = closed s.
Proof.
  unfold deliver. destruct (intercepted sig s); [done|].
  by destruct (default_exits sig).
Qed.
Lemma deliver_pool sig s : pool (deliver sig s) = pool s.
Proof.
  unfold deliver. destruct (intercepted sig s); [done|].
  by destruct (default_exits sig).
Qed.
Lemma deliver_handlers sig s : handlers (deliver sig s) = handlers s.
Proof.
  unfold deliver. destruct (intercepted sig s); [done|].
  by destruct (default_exits sig).
Qed.


Lemma is_done_deliver sig s c : is_done (deliver sig s) c = is_done s c.
Proof. unfold is_done. by rewrite deliver_closed. Qed.

Lemma is_done_call f s x : is_done (call f s) x = is_done (cancel (cf_ctx f) s) x.
Proof. by destruct f. Qed.

Lemma call_pool f s : pool (call f s) = pool s.
Proof. destruct f; simpl; by rewrite cancel_pool. Qed.
Lemma call_chans f s : chans (call f s) = chans s.
Proof. destruct f; simpl; by rewrite cancel_chans. Qed.

(** A goroutine changes no slot of the pool but its own. *)
Lemma run_goroutine_pool g alt s s' :
  run_goroutine g alt s = Some s' →
  ∃ g', pool s' = <[g := g']> (pool s).
Proof.
  intros H%run_goroutine_inv.
  destruct (pool s !! g) as [[c ch|c|c f|f|]|]; [| | | |done|done].
  - destruct H as [[_ ->]|(x & _ & ->)]; eauto.
  - subst. simpl. rewrite cancel_pool. eauto.
  - destruct H as [_ ->]. eauto.
  - subst. simpl. rewrite call_pool. eauto.
Qed.

(** Nothing but the scheduler changes a goroutine. *)
Lemma pool_step_other sigs e s s' k g :
  step sigs e s = Some s' → is_run k e = false →
  pool s !! k = Some g → pool s' !! k = Some g.
Proof.
  intros [_ H]%step_inv Hr Hk. destruct e as [q|d|[q|]|sig|k' alt].
  - destruct H as [_ ->]. by rewrite derive_pool.
  - destruct H as (_ & _ & ->). by rewrite cancel_pool.
  - destruct H as [_ ->]. unfold handled, registration. simpl.
    destruct (is_done _ _); simpl; rewrite derive_pool; simpl;
      repeat apply lookup_app_l_Some; done.
  - by subst.
  - subst. by rewrite deliver_pool.
  - apply run_goroutine_pool in H as [g' ->].
    simpl in Hr. apply bool_decide_eq_false in Hr.
    by rewrite list_lookup_insert_ne.
Qed.

(** A registration that is gone stays gone: [Notify] is only ever called on
    a channel that was just made. *)
Lemma handlers_step_None sigs e s s' ch :
  step sigs e s = Some s' → ch < length (chans s) →
  handlers s !! ch = None → handlers s' !! ch = None.
Proof.
  intros [_ H]%step_inv Hlt Hh. destruct e as [q|d|[q|]|sig|k' alt].
  - destruct H as [_ ->]. by rewrite derive_handlers.
  - destruct H as (_ & _ & ->). by rewrite cancel_handlers.
  - destruct H as [_ ->]. rewrite handled_handlers, lookup_insert_ne; [done|lia].
  - by subst.
  - subst. by rewrite deliver_handlers.
  - apply run_goroutine_inv in H.
    destruct (pool s !! k') as [[c ch'|c|c f|f|]|]; [| | | |done|done].
    + by destruct H as [[_ ->]|(x & _ & ->)].
    + subst. simpl. by rewrite cancel_handlers.
    + by destruct H as [_ ->].
    + subst. destruct f; simpl; rewrite ?cancel_handlers; [done|].
      apply lookup_delete_None. by right.
Qed.

Lemma handlers_run_None sigs es s s' ch :
  run sigs es s = Some s' → ch < length (chans s) →
  handlers s !! ch = None → handlers s' !! ch = None.
Proof.
  revert s. induction es as [|e es IH]; simpl; intros s.
  - by intros [= <-].
  - destruct (step sigs e s) as [s1|] eqn:Hs; [|done]. intros Hr Hlt Hh.
    apply (IH s1); [done| |by eapply handlers_step_None].
    pose proof (extends_step _ _ _ _ Hs) as (_ & ? & _). lia.
Qed.

(** A full channel keeps its signal when another one is delivered. *)
Lemma offer_full sig h ch x : offer sig h ch (Some x) = Some x.
Proof. unfold offer. destruct (h !! ch); [|done]. by destruct (wants _ _). Qed.

Lemma deliver_chan_full sig s ch x :
  chans s !! ch = Some (Some x) → chans (deliver sig s) !! ch = Some (Some x).
Proof.
  intros Hx. unfold deliver. destruct (intercepted sig s).
  - simpl. rewrite list_lookup_imap, Hx. simpl. by rewrite offer_full.
  - by destruct (default_exits sig).
Qed.

(** A signal that a registered channel wants, and has room for, gets there. *)
Lemma deliver_chan_wanted sig s ch sigs :
  handlers s !! ch = Some sigs → wants sigs sig = true →
  ch < length (chans s) →
  ∃ x, chans (deliver sig s) !! ch = Some (Some x).
Proof.
  intros Hh Hw Hlt. unfold deliver.
  assert (intercepted sig s = true) as ->.
  { apply bool_decide_eq_true. exists ch, sigs. done. }
  simpl. destruct (lookup_lt_is_Some_2 _ _ Hlt) as [slot Hs].
  rewrite list_lookup_imap, Hs. simpl. unfold offer. rewrite Hh, Hw.
  destruct slot; eauto.
Qed.

(** A signal that a channel does not want does not get there. *)
Lemma deliver_chan_unwanted sig s ch :
  (∀ sigs, handlers s !! ch = Some sigs → wants sigs sig = false) →
  chans (deliver sig s) !! ch = chans s !! ch.
Proof.
  intros Hh. unfold deliver. destruct (intercepted sig s).
  - simpl. rewrite list_lookup_imap. destruct (chans s !! ch) as [slot|]; [|done].
    simpl. unfold offer. destruct (handlers s !! ch) as [sigs|] eqn:E; [|done].
    by rewrite (Hh sigs).
  - by destruct (default_exits sig).
Qed.

(** * One call of [Handle], followed through the life of the process *)

Section Call.

Variable Signals : list nat.

(** The call of section [Protocol]; the definitions of that section are
    used at these parameters. *)
Variables (i ch : nat) (p : ctx) (n w : nat).

Abbreviation c := (SignalCtx i ch p).
Abbreviation stop := (StopOf (SignalCtx i ch p) ch).
Abbreviation tracks := (tracks Signals i ch p n w).
Abbreviation tr_ctx := (tr_ctx Signals i ch p n w).
Abbreviation tr_chan := (tr_chan Signals i ch p n w).
Abbreviation tr_foreign := (tr_foreign Signals i ch p n w).
Abbreviation tr_armed := (tr_armed Signals i ch p n w).
Abbreviation tr_waiter := (tr_waiter Signals i ch p n w).
Abbreviation quiet := (quiet i ch p n).
Abbreviation lag := (lag i ch p n).
Abbreviation wlag := (wlag i ch p w).
Abbreviation nlag := (nlag i ch p n).
Abbreviation wleft := (wleft w).

Lemma tracks_waiter_lt s : tracks s → w < length (pool s).
Proof.
  intros H. pose proof (tr_waiter _ H) as Hw.
  destruct (pool s !! w) eqn:E; [|done]. by apply lookup_lt_Some in E.
Qed.

Lemma not_done_mono s s' d :
  extends s s' → is_done s' d = false → is_done s d = false.
Proof.
  intros He Hd. destruct (is_done s d) eqn:E; [|done].
  by rewrite (extends_done _ _ _ He E) in Hd.
Qed.

(** Steps that leave the two goroutines and the registration alone. *)
Lemma tracks_frame s s' extra :
  tracks s → extends s s' →
  pool s' = pool s ++ extra →
  (∀ g, g ∈ extra → ¬ touches i ch g) →
  handlers s' !! ch = handlers s !! ch →
  tracks s'.
Proof.
  intros Ht He Hp Hex Hh. pose proof (tracks_waiter_lt _ Ht) as Hw.
  destruct He as (Hc & Hch & Hcl).
  assert (extends s s') as He by done.
  split.
  - apply Hc, Ht.
  - pose proof (tr_chan _ Ht). lia.
  - intros k g. rewrite Hp. intros [Hk|[_ Hk]]%lookup_app_Some Hkw Hto.
    + by apply (tr_foreign _ Ht k g).
    + destruct (Hex g); [|done]. apply list_elem_of_lookup. eauto.
  - intros Hd%(not_done_mono _ _ _ He). rewrite Hp.
    destruct (tr_armed _ Ht Hd) as [H|H]; [left|right];
      by apply lookup_app_l_Some.
  - rewrite Hp, lookup_app_l, Hh by done.
    pose proof (tr_waiter _ Ht) as H.
    destruct (pool s !! w) as [[| | | |]|]; try done.
    + destruct H as (? & ? & ?). split_and!; [done..|].
      by apply (extends_done _ _ _ He).
    + destruct H as (? & ?). split; [done|]. by apply (extends_done _ _ _ He).
Qed.

(** A step of a goroutine other than the waiter. *)
Lemma tracks_update_other k g' s s2 :
  tracks s → extends s s2 → pool s2 = pool s →
  handlers s2 !! ch = handlers s !! ch →
  k ≠ w →
  (touches i ch g' → k = n ∧ (g' = Notifier_select c ch ∨ g' = Notifier_cancel c)) →
  (k = n → is_done s2 c = false →
   g' = Notifier_select c ch ∨ g' = Notifier_cancel c) →
  tracks (set_pool (<[k := g']>) s2).
Proof.
  intros Ht He Hp Hh Hkw Hto Harm.
  assert (tracks s2) as Ht2.
  { apply (tracks_frame s s2 []); [done..|by rewrite app_nil_r| |done].
    by intros g ?%elem_of_nil. }
  split; simpl.
  - apply Ht2.
  - apply Ht2.
  - intros k' g. intros [(-> & <- & _)|[_ Hk]]%list_lookup_insert_Some ? ?.
    + by apply Hto.
    + by apply (tr_foreign _ Ht2 k' g).
  - intros Hd. change (is_done s2 c = false) in Hd.
    destruct (decide (k = n)) as [->|Hne].
    + pose proof (tr_armed _ Ht2 Hd) as Hn.
      assert (n < length (pool s2)).
      { destruct Hn as [Hn|Hn]; by apply lookup_lt_Some in Hn. }
      rewrite list_lookup_insert_eq by done.
      destruct (Harm eq_refl Hd) as [->| ->]; auto.
    + rewrite list_lookup_insert_ne by done. by apply Ht2.
  - rewrite list_lookup_insert_ne by done. apply Ht2.
Qed.

(** A step of the waiter. *)
Lemma tracks_update_waiter g' s s2 :
  tracks s → extends s s2 → pool s2 = pool s →
  is_done s2 c = true →
  match g' with
  | Waiter_call f => f = stop ∧ handlers s2 !! ch = Some Signals
  | Exited => handlers s2 !! ch = None
  | _ => False
  end →
  tracks (set_pool (<[w := g']>) s2).
Proof.
  intros Ht He Hp Hd Hg. pose proof (tracks_waiter_lt _ Ht) as Hw.
  rewrite <-Hp in Hw.
  destruct He as (Hc & Hch & Hcl).
  split; simpl.
  - apply Hc, Ht.
  - pose proof (tr_chan _ Ht). lia.
  - intros k g. intros [(-> & <- & _)|[_ Hk]]%list_lookup_insert_Some ? ?.
    + done.
    + rewrite Hp in Hk. by apply (tr_foreign _ Ht k g).
  - intros Hd'. change (is_done s2 c = false) in Hd'. congruence.
  - rewrite list_lookup_insert_eq by done.
    change (is_done (set_pool _ s2) c) with (is_done s2 c).
    destruct g'; naive_solver.
Qed.

Lemma tracks_run_goroutine k alt s s' :
  tracks s → run_goroutine k alt s = Some s' → tracks s'.
Proof.
  intros Ht Hr. pose proof (run_goroutine_inv _ _ _ _ Hr) as H.
  pose proof (tr_waiter _ Ht) as Hw.
  destruct (pool s !! k) as [[c' ch'|c'|c' f|f|]|] eqn:Hk; [| | | |done|done].
  - (* the select of a notifier *)
    assert (k ≠ w) as Hkw by (intros ->; by rewrite Hk in Hw).
    destruct H as [[Hd ->]|(x & Hx & ->)].
    + apply (tracks_update_other k Exited s s); [done|apply extends_refl|done..| |].
      * done.
      * intros -> Hnd. destruct (tr_armed _ Ht Hnd) as [Hn|Hn];
          rewrite Hk in Hn; simplify_eq. congruence.
    + apply (tracks_update_other k _ s); [done| |done..| |].
      * split_and!; simpl; [done|by rewrite length_insert|done].
      * simpl. intros Hid.
        destruct (tr_foreign _ Ht k _ Hk Hkw) as [-> [?|?]]; [by left|..];
          simplify_eq. auto.
      * intros -> Hnd. destruct (tr_armed _ Ht Hnd) as [Hn|Hn];
          rewrite Hk in Hn; simplify_eq. auto.
  - (* the cancel of a notifier *)
    assert (k ≠ w) as Hkw by (intros ->; by rewrite Hk in Hw).
    subst s'.
    apply (tracks_update_other k Exited s); [done|apply extends_cancel|
      by rewrite cancel_pool|by rewrite cancel_handlers|done|done|].
    intros -> Hnd.
    pose proof (not_done_mono _ _ _ (extends_cancel c' s) Hnd) as Hnd'.
    destruct (tr_armed _ Ht Hnd') as [Hn|Hn]; rewrite Hk in Hn; simplify_eq.
    by rewrite is_done_cancel_self in Hnd.
  - (* the receive of a waiter *)
    destruct H as [Hd ->]. destruct (decide (k = w)) as [->|Hkw].
    + rewrite Hk in Hw. destruct Hw as (-> & -> & Hh).
      by apply (tracks_update_waiter _ s s); [done|apply extends_refl|..].
    + apply (tracks_update_other k _ s s); [done|apply extends_refl|done..| |].
      * simpl. intros Hto.
        destruct (tr_foreign _ Ht k _ Hk Hkw) as [_ [?|?]]; [by right|..];
          simplify_eq.
      * intros -> Hnd. destruct (tr_armed _ Ht Hnd) as [Hn|Hn];
          rewrite Hk in Hn; simplify_eq.
  - (* the call of a waiter *)
    subst s'. destruct (decide (k = w)) as [->|Hkw].
    + rewrite Hk in Hw. destruct Hw as (-> & Hh & Hd).
      apply (tracks_update_waiter _ s); [done|apply extends_call| |..].
      * simpl. by rewrite cancel_pool.
      * simpl. change (is_done (Stop ch ?s') ?d) with (is_done s' d).
        by apply is_done_cancel_self.
      * simpl. apply lookup_delete_eq.
    + assert (¬ touches i ch (Waiter_call f)) as Hnt.
      { intros Hto. destruct (tr_foreign _ Ht k _ Hk Hkw Hto) as [_ [?|?]];
          simplify_eq. }
      apply (tracks_update_other k _ s); [done|apply extends_call| | |done|done|].
      * destruct f; simpl; by rewrite cancel_pool.
      * destruct f as [c'|c' ch']; simpl; rewrite ?cancel_handlers; [done|].
        rewrite lookup_delete_ne; [done|].
        intros ->. apply Hnt. simpl. auto.
      * intros -> Hnd.
        pose proof (not_done_mono _ _ _ (extends_call f s) Hnd) as Hnd'.
        destruct (tr_armed _ Ht Hnd') as [Hn|Hn]; rewrite Hk in Hn; simplify_eq.
Qed.

Lemma tracks_step e s s' :
  wf s → tracks s → step Signals e s = Some s' → tracks s'.
Proof.
  intros Hwf Ht Hs. pose proof (extends_step _ _ _ _ Hs) as He.
  apply step_inv in Hs as [_ H].
  destruct e as [q|d|[q|]|sig|k alt].
  - destruct H as [_ ->].
    apply (tracks_frame s _ []); [done..|by rewrite derive_pool, app_nil_r| |].
    + by intros g ?%elem_of_nil.
    + by rewrite derive_handlers.
  - destruct H as (_ & _ & ->).
    apply (tracks_frame s _ []); [done..|by rewrite cancel_pool, app_nil_r| |].
    + by intros g ?%elem_of_nil.
    + by rewrite cancel_handlers.
  - destruct H as [Hv ->].
    pose proof (tr_ctx _ Ht) as Hi%lookup_lt_Some.
    pose proof (tr_chan _ Ht) as Hch.
    eapply (tracks_frame s); [done..|by apply handled_pool| |].
    + intros g Hg. apply elem_of_app in Hg as [Hg|Hg].
      * destruct (is_done s q); [by apply elem_of_nil in Hg|].
        apply list_elem_of_singleton in Hg as ->. simpl.
        intros [[=]|?]; lia.
      * apply list_elem_of_singleton in Hg as ->. simpl.
        intros [[=]|[[=]|[=]]]; lia.
    + rewrite handled_handlers. apply lookup_insert_ne. lia.
  - subst s'. apply (tracks_frame s _ []); [done..|by rewrite app_nil_r| |done].
    by intros g ?%elem_of_nil.
  - subst s'.
    apply (tracks_frame s _ []); [done..| | |].
    + unfold deliver. rewrite app_nil_r.
      destruct (intercepted sig s); [done|]. by destruct (default_exits sig).
    + by intros g ?%elem_of_nil.
    + unfold deliver.
      destruct (intercepted sig s); [done|]. by destruct (default_exits sig).
  - by eapply tracks_run_goroutine.
Qed.

Lemma tracks_run es s s' :
  wf s → tracks s → run Signals es s = Some s' → tracks s'.
Proof.
  revert s. induction es as [|e es IH]; simpl; intros s Hwf Ht.
  - by intros [= <-].
  - destruct (step Signals e s) as [s1|] eqn:Hs; [|done].
    intros Hr. eapply (IH s1); [by eapply wf_step|by eapply tracks_step|done].
Qed.

Lemma tracks_valid s : tracks s → valid s c = true.
Proof. intros Ht. apply (valid_lookup _ i); [done|apply Ht]. Qed.

Lemma tracks_waiter_kind s k g :
  tracks s → pool s !! k = Some g →
  match g with Notifier_select _ _ | Notifier_cancel _ => k ≠ w | _ => True end.
Proof.
  intros Ht Hk. pose proof (tr_waiter _ Ht) as Hw.
  destruct g; try done; intros ->; by rewrite Hk in Hw.
Qed.

(** While the context is not done its registration is in place and the
    waiter waits. *)
Lemma tracks_registered s :
  tracks s → is_done s c = false →
  handlers s !! ch = Some Signals ∧ pool s !! w = Some (Waiter_recv c stop).
Proof.
  intros Ht Hnd. pose proof (tr_waiter _ Ht) as Hw.
  destruct (pool s !! w) as [[c' ch'|c'|c' f|f|]|]; try done.
  - by destruct Hw as (-> & -> & ?).
  - destruct Hw as (_ & _ & ?). congruence.
  - destruct Hw as [_ ?]. congruence.
Qed.

(** A registration that is gone belonged to a context that is done, and
    its waiter has exited. *)
Lemma tracks_released s :
  tracks s → handlers s !! ch = None →
  is_done s c = true ∧ pool s !! w = Some Exited.
Proof.
  intros Ht Hh. pose proof (tr_waiter _ Ht) as Hw.
  destruct (pool s !! w) as [[c' ch'|c'|c' f|f|]|]; try done.
  - destruct Hw as (_ & _ & ?). congruence.
  - destruct Hw as (_ & ? & _). congruence.
  - by destruct Hw as [_ ?].
Qed.

(** Nobody but the notifier takes from the channel. *)
Lemma chans_step_other e s s' x :
  tracks s → step Signals e s = Some s' →
  is_run n e = false → (∀ sig, e ≠ EvSignal sig) →
  chans s !! ch = Some x → chans s' !! ch = Some x.
Proof.
  intros Ht [_ H]%step_inv Hr Hsig Hx. destruct e as [q|d|[q|]|sig|k alt].
  - destruct H as [_ ->]. by rewrite derive_chans.
  - destruct H as (_ & _ & ->). by rewrite cancel_chans.
  - destruct H as [_ ->]. rewrite handled_chans. by apply lookup_app_l_Some.
  - by subst.
  - by destruct (Hsig sig).
  - simpl in Hr. apply bool_decide_eq_false in Hr.
    apply run_goroutine_inv in H.
    destruct (pool s !! k) as [[c' ch'|c'|c' f|f|]|] eqn:Hk; [| | | |done|done].
    + destruct H as [[_ ->]|(y & _ & ->)]; [done|]. simpl.
      rewrite list_lookup_insert_ne; [done|]. intros ->.
      pose proof (tracks_waiter_kind _ _ _ Ht Hk) as Hkw. simpl in Hkw.
      destruct (tr_foreign _ Ht k _ Hk Hkw) as [? _]; [by right|done].
    + subst. simpl. by rewrite cancel_chans.
    + by destruct H as [_ ->].
    + subst. simpl. by rewrite call_chans.
Qed.

(** The derived context changes state for two reasons only: its parent is
    done, or its notifier, having received a signal, cancels it. *)
Lemma done_flip_step e s s' :
  wf s → tracks s → step Signals e s = Some s' →
  is_done s c = false → is_done s' c = true →
  is_done s' p = true ∨
  ∃ alt, e = EvRun n alt ∧ pool s !! n = Some (Notifier_cancel c).
Proof.
  intros Hwf Ht Hs Hnd Hd. pose proof (tracks_valid _ Ht) as Hv.
  assert (∀ d, ctx_id d ≠ Some i → is_done (cancel d s) c = true →
               is_done (cancel d s) p = true) as Hflip.
  { intros d Hne. by apply (cancel_flip s d c p). }
  apply step_inv in Hs as [_ H]. destruct e as [q|d|[q|]|sig|k alt].
  - destruct H as [_ ->].
    rewrite (is_done_derive_old _ _ _ _ mk_ok_CancelCtx) in Hd by done.
    congruence.
  - destruct H as ((j & q & ->) & Hvd & ->). left. apply Hflip; [|done].
    simpl. intros Hj.
    destruct (valid_inv _ _ Hvd) as [?|(j' & Hj' & Hl)]; [done|].
    simpl in Hj'. assert (j' = i) as -> by congruence.
    rewrite (tr_ctx _ Ht) in Hl. done.
  - destruct H as [_ ->]. rewrite is_done_handled_old in Hd by done. congruence.
  - subst. simpl in Hd. unfold is_done in *. simpl in *. congruence.
  - subst. rewrite is_done_deliver in Hd. congruence.
  - apply run_goroutine_inv in H.
    destruct (pool s !! k) as [[c' ch'|c'|c' f|f|]|] eqn:Hk; [| | | |done|done].
    + destruct H as [[_ ->]|(y & _ & ->)];
        unfold is_done in *; simpl in *; congruence.
    + subst. change (is_done (cancel c' s) c = true) in Hd.
      change (is_done (set_pool ?f ?s') ?x) with (is_done s' x).
      destruct (decide (ctx_id c' = Some i)) as [Hid|Hid]; [|by left; apply Hflip].
      right. exists alt.
      pose proof (tracks_waiter_kind _ _ _ Ht Hk) as Hkw. simpl in Hkw.
      destruct (tr_foreign _ Ht k _ Hk Hkw Hid) as [-> [?|?]]; simplify_eq.
      done.
    + destruct H as [_ ->]. unfold is_done in *; simpl in *; congruence.
    + subst. change (is_done (call f s) c = true) in Hd.
      change (is_done (set_pool ?f ?s') ?x) with (is_done s' x).
      rewrite is_done_call in *. left. apply Hflip; [|done]. intros Hid.
      destruct (decide (k = w)) as [->|Hkw].
      * pose proof (tr_waiter _ Ht) as Hw. rewrite Hk in Hw.
        destruct Hw as (_ & _ & ?). congruence.
      * destruct (tr_foreign _ Ht k _ Hk Hkw) as [_ [?|?]]; [by left|..];
          simplify_eq.
Qed.

(** *** Before any signal *)

Lemma quiet_step e s s' :
  wf s → tracks s → quiet s → step Signals e s = Some s' →
  quiet s' ∨ is_done s' p = true ∨
  ∃ sig, e = EvSignal sig ∧ wants Signals sig = true.
Proof.
  intros Hwf Ht (Hnd & Hch & Hn) Hs.
  destruct (is_done s' c) eqn:Hd.
  { destruct (done_flip_step _ _ _ Hwf Ht Hs Hnd Hd) as [?|(alt & _ & ?)];
      [auto|congruence]. }
  destruct (tracks_registered _ Ht Hnd) as [Hh _].
  destruct (is_run n e) eqn:Hr.
  { destruct e as [| | | |k alt]; try done.
    apply bool_decide_eq_true in Hr as ->.
    apply step_inv in Hs as [_ H]. apply run_goroutine_inv in H.
    rewrite Hn in H. destruct H as [[? _]|(x & ? & _)]; congruence. }
  destruct e as [q|d|[q|]|sig|k alt];
    try (left; split_and!;
         [done
         |by apply (chans_step_other _ _ _ _ Ht Hs)
         |by apply (pool_step_other _ _ _ _ _ _ Hs)]).
  destruct (wants Signals sig) eqn:Hw; [right; right; eauto|].
  left. split_and!; [done| |by apply (pool_step_other _ _ _ _ _ _ Hs)].
  apply step_inv in Hs as [_ ->].
  rewrite deliver_chan_unwanted; [done|]. intros sigs. rewrite Hh. congruence.
Qed.

(** No signal, no parent done: the derived context is not done. *)
Lemma quiet_run es s s' :
  wf s → tracks s → quiet s → run Signals es s = Some s' →
  is_done s' c = true →
  is_done s' p = true ∨
  ∃ sig, EvSignal sig ∈ es ∧ wants Signals sig = true.
Proof.
  revert s. induction es as [|e es IH]; simpl; intros s Hwf Ht Hq.
  - intros [= <-] Hd. destruct Hq as [? _]. congruence.
  - destruct (step Signals e s) as [s1|] eqn:Hs; [|done]. intros Hr Hd.
    pose proof (wf_step _ _ _ _ Hwf Hs) as Hwf1.
    pose proof (tracks_step _ _ _ Hwf Ht Hs) as Ht1.
    destruct (quiet_step _ _ _ Hwf Ht Hq Hs) as [Hq1|[Hp|(sig & -> & Hw)]].
    + destruct (IH s1 Hwf1 Ht1 Hq1 Hr Hd) as [?|(sig & ? & ?)]; [by left|].
      right. exists sig. split; [by apply list_elem_of_further|done].
    + left. by apply (extends_done s1 s' p (extends_run _ _ _ _ Hr)).
    + right. exists sig. split; [apply list_elem_of_here|done].
Qed.

(** *** After a signal *)

Lemma deliver_lag sig s :
  tracks s → wants Signals sig = true → lag 2 (deliver sig s).
Proof.
  intros Ht Hw. destruct (is_done s c) eqn:Hd.
  { left. by rewrite is_done_deliver. }
  destruct (tracks_registered _ Ht Hd) as [Hh _].
  right. rewrite deliver_pool.
  destruct (tr_armed _ Ht Hd) as [Hn|Hn]; [right|left; split; [lia|done]].
  split_and!; [lia|done|].
  eapply deliver_chan_wanted; [done..|apply Ht].
Qed.

Lemma lag_step k e s s' :
  tracks s → step Signals e s = Some s' → lag k s →
  lag (if is_run n e then pred k else k) s'.
Proof.
  intros Ht Hs [Hd|[[Hk Hn]|(Hk & Hn & x & Hx)]].
  - left. by apply (extends_done _ _ _ (extends_step _ _ _ _ Hs)).
  - destruct (is_run n e) eqn:Hr.
    + destruct e as [| | | |k' alt]; try done.
      apply bool_decide_eq_true in Hr as ->.
      apply step_inv in Hs as [_ H]. apply run_goroutine_inv in H.
      rewrite Hn in H. subst. left.
      change (is_done (set_pool ?f ?s') ?x) with (is_done s' x).
      by apply is_done_cancel_self.
    + right; left. split; [done|]. by apply (pool_step_other _ _ _ _ _ _ Hs).
  - destruct (is_run n e) eqn:Hr.
    + destruct e as [| | | |k' alt]; try done.
      apply bool_decide_eq_true in Hr as ->.
      apply step_inv in Hs as [_ H]. apply run_goroutine_inv in H.
      rewrite Hn in H. destruct H as [[Hd ->]|(y & _ & ->)]; [by left|].
      right; left. split; [lia|]. simpl.
      apply list_lookup_insert_eq. by apply lookup_lt_Some in Hn.
    + right; right. split_and!; [done|by apply (pool_step_other _ _ _ _ _ _ Hs)|].
      exists x.
      assert ((∃ sig, e = EvSignal sig) ∨ ∀ sig, e ≠ EvSignal sig)
        as [[sig ->]|Hno] by (destruct e; eauto).
      * apply step_inv in Hs as [_ ->]. by apply deliver_chan_full.
      * by apply (chans_step_other _ _ _ _ Ht Hs).
Qed.

Lemma lag_run es : ∀ k s s',
  wf s → tracks s → lag k s → run Signals es s = Some s' →
  k ≤ times_run n es → is_done s' c = true.
Proof.
  induction es as [|e es IH]; simpl; intros k s s' Hwf Ht Hl.
  - intros [= <-] Hk. destruct Hl as [?|[[? _]|[? _]]]; [done|lia..].
  - destruct (step Signals e s) as [s1|] eqn:Hs; [|done]. intros Hr Hk.
    apply (IH (if is_run n e then pred k else k) s1);
      [by eapply wf_step|by eapply tracks_step|by eapply lag_step|done|].
    destruct (is_run n e); lia.
Qed.

Lemma lag_mono k k' s : k ≤ k' → lag k s → lag k' s.
Proof.
  intros Hk [?|[[? ?]|(? & ? & ?)]]; [by left|right; left|right; right];
    (split; [lia|done]).
Qed.

Lemma lag_run_stable es : ∀ k s s',
  wf s → tracks s → lag k s → run Signals es s = Some s' → lag k s'.
Proof.
  induction es as [|e es IH]; simpl; intros k s s' Hwf Ht Hl.
  - by intros [= <-].
  - destruct (step Signals e s) as [s1|] eqn:Hs; [|done]. intros Hr.
    apply (IH k s1); [by eapply wf_step|by eapply tracks_step| |done].
    eapply lag_mono; [|by eapply lag_step]. destruct (is_run n e); lia.
Qed.

(** The notifier is never blocked on the way. *)
Lemma lag_enabled s alt :
  lag 2 s → is_done s c = false → exited s = false →
  is_Some (step Signals (EvRun n alt) s).
Proof.
  intros [Hd|[[_ Hn]|(_ & Hn & x & Hx)]] Hnd Hex; [congruence|..];
    unfold step, run_goroutine, recv_done; rewrite Hex, Hn; [done|].
  rewrite Hx, Hnd. simpl. done.
Qed.

(** *** After the context is done *)

Lemma done_wlag s : tracks s → is_done s c = true → wlag 2 s.
Proof.
  intros Ht Hd. pose proof (tr_waiter _ Ht) as Hw. unfold wlag.
  destruct (pool s !! w) as [[c' ch'|c'|c' f|f|]|]; try done.
  - destruct Hw as (-> & -> & _). right; right. split_and!; [lia|done..].
  - destruct Hw as (-> & _ & _). right; left. split; [lia|done].
  - destruct Hw as [? _]. by left.
Qed.

Lemma wlag_step k e s s' :
  tracks s → step Signals e s = Some s' → wlag k s →
  wlag (if is_run w e then pred k else k) s'.
Proof.
  intros Ht Hs [Hh|[[Hk Hw]|(Hk & Hw & Hd)]].
  - left. eapply handlers_step_None; [done|apply Ht|done].
  - destruct (is_run w e) eqn:Hr.
    + destruct e as [| | | |k' alt]; try done.
      apply bool_decide_eq_true in Hr as ->.
      apply step_inv in Hs as [_ H]. apply run_goroutine_inv in H.
      rewrite Hw in H. subst. left. simpl. apply lookup_delete_eq.
    + right; left. split; [done|]. by apply (pool_step_other _ _ _ _ _ _ Hs).
  - destruct (is_run w e) eqn:Hr.
    + destruct e as [| | | |k' alt]; try done.
      apply bool_decide_eq_true in Hr as ->.
      apply step_inv in Hs as [_ H]. apply run_goroutine_inv in H.
      rewrite Hw in H. destruct H as [_ ->].
      right; left. split; [lia|]. simpl.
      apply list_lookup_insert_eq. by apply lookup_lt_Some in Hw.
    + right; right. split_and!; [done|by apply (pool_step_other _ _ _ _ _ _ Hs)|].
      by apply (extends_done _ _ _ (extends_step _ _ _ _ Hs)).
Qed.

Lemma wlag_run es : ∀ k s s',
  wf s → tracks s → wlag k s → run Signals es s = Some s' →
  k ≤ times_run w es → handlers s' !! ch = None.
Proof.
  induction es as [|e es IH]; simpl; intros k s s' Hwf Ht Hl.
  - intros [= <-] Hk. destruct Hl as [?|[[? _]|[? _]]]; [done|lia..].
  - destruct (step Signals e s) as [s1|] eqn:Hs; [|done]. intros Hr Hk.
    apply (IH (if is_run w e then pred k else k) s1);
      [by eapply wf_step|by eapply tracks_step|by eapply wlag_step|done|].
    destruct (is_run w e); lia.
Qed.

(** The waiter is never blocked on the way. *)
Lemma wlag_enabled s alt :
  tracks s → is_done s c = true → is_Some (handlers s !! ch) →
  exited s = false →
  is_Some (step Signals (EvRun w alt) s).
Proof.
  intros Ht Hd [x Hh] Hex. pose proof (tr_waiter _ Ht) as Hw.
  unfold step, run_goroutine, recv_done. rewrite Hex.
  destruct (pool s !! w) as [[c' ch'|c'|c' f|f|]|]; try done.
  - destruct Hw as (-> & -> & _). by rewrite Hd.
  - destruct Hw as [? _]. congruence.
Qed.

(** *** The goroutines come to an end *)

(** The slot of the notifier holds the notifier, until it has exited. *)
Lemma notifier_slot_step e s s' :
  step Signals e s = Some s' →
  pool s !! n = Some (Notifier_select c ch) ∨
  pool s !! n = Some (Notifier_cancel c) ∨ pool s !! n = Some Exited →
  pool s' !! n = Some (Notifier_select c ch) ∨
  pool s' !! n = Some (Notifier_cancel c) ∨ pool s' !! n = Some Exited.
Proof.
  intros Hs Hn. destruct (is_run n e) eqn:Hr.
  - destruct e as [| | | |k alt]; try done.
    apply bool_decide_eq_true in Hr as ->.
    apply step_inv in Hs as [_ H]. apply run_goroutine_inv in H.
    assert (n < length (pool s)) as Hlt.
    { destruct Hn as [Hn|[Hn|Hn]]; by apply lookup_lt_Some in Hn. }
    destruct Hn as [Hn|[Hn|Hn]]; rewrite Hn in H; [| |done].
    + destruct H as [[_ ->]|(x & _ & ->)]; simpl;
        rewrite list_lookup_insert_eq by done; auto.
    + subst s'. simpl. rewrite cancel_pool.
      rewrite list_lookup_insert_eq by done. auto.
  - destruct Hn as [Hn|[Hn|Hn]];
      pose proof (pool_step_other _ _ _ _ _ _ Hs Hr Hn); auto.
Qed.

Lemma notifier_slot_run es : ∀ s s',
  run Signals es s = Some s' →
  pool s !! n = Some (Notifier_select c ch) ∨
  pool s !! n = Some (Notifier_cancel c) ∨ pool s !! n = Some Exited →
  pool s' !! n = Some (Notifier_select c ch) ∨
  pool s' !! n = Some (Notifier_cancel c) ∨ pool s' !! n = Some Exited.
Proof.
  induction es as [|e es IH]; simpl; intros s s'.
  - by intros [= <-].
  - destruct (step Signals e s) as [s1|] eqn:Hs; [|done]. intros Hr Hn.
    apply (IH s1); [done|]. by eapply notifier_slot_step.
Qed.

Lemma done_nlag s :
  is_done s c = true →
  pool s !! n = Some (Notifier_select c ch) ∨
  pool s !! n = Some (Notifier_cancel c) ∨ pool s !! n = Some Exited →
  nlag 2 s.
Proof.
  intros Hd [Hn|[Hn|Hn]]; [right; right|right; left|left];
    try done; split_and!; (done || lia).
Qed.

Lemma nlag_step k e s s' :
  step Signals e s = Some s' → nlag k s →
  nlag (if is_run n e then pred k else k) s'.
Proof.
  intros Hs [Hn|[[Hk Hn]|(Hk & Hn & Hd)]].
  - destruct (is_run n e) eqn:Hr.
    + destruct e as [| | | |k' alt]; try done.
      apply bool_decide_eq_true in Hr as ->.
      apply step_inv in Hs as [_ H]. apply run_goroutine_inv in H.
      by rewrite Hn in H.
    + left. by apply (pool_step_other _ _ _ _ _ _ Hs).
  - destruct (is_run n e) eqn:Hr.
    + destruct e as [| | | |k' alt]; try done.
      apply bool_decide_eq_true in Hr as ->.
      apply step_inv in Hs as [_ H]. apply run_goroutine_inv in H.
      rewrite Hn in H. subst s'. left. simpl. rewrite cancel_pool.
      apply list_lookup_insert_eq. by apply lookup_lt_Some in Hn.
    + right; left. split; [done|]. by apply (pool_step_other _ _ _ _ _ _ Hs).
  - destruct (is_run n e) eqn:Hr.
    + destruct e as [| | | |k' alt]; try done.
      apply bool_decide_eq_true in Hr as ->.
      apply step_inv in Hs as [_ H]. apply run_goroutine_inv in H.
      pose proof (lookup_lt_Some _ _ _ Hn) as Hlt.
      rewrite Hn in H. destruct H as [[_ ->]|(x & _ & ->)]; simpl.
      * left. by apply list_lookup_insert_eq.
      * right; left. split; [lia|]. by apply list_lookup_insert_eq.
    + right; right. split_and!; [done|by apply (pool_step_other _ _ _ _ _ _ Hs)|].
      by apply (extends_done _ _ _ (extends_step _ _ _ _ Hs)).
Qed.

Lemma nlag_run es : ∀ k s s',
  nlag k s → run Signals es s = Some s' →
  k ≤ times_run n es → pool s' !! n = Some Exited.
Proof.
  induction es as [|e es IH]; simpl; intros k s s' Hl.
  - intros [= <-] Hk. destruct Hl as [?|[[? _]|[? _]]]; [done|lia..].
  - destruct (step Signals e s) as [s1|] eqn:Hs; [|done]. intros Hr Hk.
    apply (IH (if is_run n e then pred k else k) s1);
      [by eapply nlag_step|done|].
    destruct (is_run n e); lia.
Qed.

(** Once the context is done, a notifier that has not exited can run. *)
Lemma nlag_enabled s alt :
  nlag 2 s → pool s !! n ≠ Some Exited → exited s = false →
  is_Some (step Signals (EvRun n alt) s).
Proof.
  intros [Hn|[[_ Hn]|(_ & Hn & Hd)]] Hne Hex; [done|..];
    unfold step, run_goroutine, recv_done; rewrite Hex, Hn; [done|].
  rewrite Hd. destruct (chans s !! ch) as [[x|]|]; simpl; by destruct alt.
Qed.

(** The registration is removed by the second step of the waiter, not
    before. *)
Lemma wleft_run es : ∀ s s',
  wf s → tracks s → run Signals es s = Some s' →
  handlers s' !! ch = None → wleft s ≤ times_run w es.
Proof.
  induction es as [|e es IH]; simpl; intros s s' Hwf Ht.
  - intros [= <-] Hh. destruct (tracks_released _ Ht Hh) as [_ Hw].
    unfold wleft. by rewrite Hw.
  - destruct (step Signals e s) as [s1|] eqn:Hs; [|done]. intros Hr Hh.
    pose proof (IH s1 s' (wf_step _ _ _ _ Hwf Hs)
                  (tracks_step _ _ _ Hwf Ht Hs) Hr Hh) as Hle.
    pose proof (tracks_waiter_lt _ Ht) as Hlt.
    pose proof (tr_waiter _ Ht) as Hw.
    destruct (is_run w e) eqn:Hrun.
    + destruct e as [| | | |k alt]; try done.
      apply bool_decide_eq_true in Hrun as ->.
      apply step_inv in Hs as [_ H]. apply run_goroutine_inv in H.
      unfold wleft in *.
      destruct (pool s !! w) as [[c' ch'|c'|c' f|f|]|]; try done.
      * destruct H as [_ ->]. simpl in Hle.
        rewrite list_lookup_insert_eq in Hle by done. lia.
      * lia.
    + unfold wleft in *.
      destruct (pool s !! w) as [g|] eqn:Hg; [|done].
      rewrite (pool_step_other _ _ _ _ _ _ Hs Hrun Hg) in Hle.
      destruct g; lia.
Qed.

(** When the call started no notifier, its channel is never emptied. *)
Lemma chans_step_no_notifier e s s' x :
  tracks s → n = w → step Signals e s = Some s' →
  chans s !! ch = Some (Some x) → chans s' !! ch = Some (Some x).
Proof.
  intros Ht Hnw Hs Hx.
  assert ((∃ sig, e = EvSignal sig) ∨ ∀ sig, e ≠ EvSignal sig)
    as [[sig ->]|Hno] by (destruct e; eauto).
  { apply step_inv in Hs as [_ ->]. by apply deliver_chan_full. }
  destruct (is_run n e) eqn:Hr; [|by apply (chans_step_other _ _ _ _ Ht Hs)].
  destruct e as [| | | |k alt]; try done.
  apply bool_decide_eq_true in Hr as ->.
  apply step_inv in Hs as [_ H]. apply run_goroutine_inv in H.
  pose proof (tr_waiter _ Ht) as Hw. rewrite <-Hnw in Hw.
  destruct (pool s !! n) as [[c' ch'|c'|c' f|f|]|]; try done.
  - by destruct H as [_ ->].
  - subst s'. simpl. by rewrite call_chans.
Qed.

End Call.

(** ** The call itself *)

Lemma old_goroutine_foreign s k g :
  wf s → pool s !! k = Some g →
  ¬ touches (length (ctxs s)) (length (chans s)) g.
Proof.
  intros Hwf Hk. pose proof (wf_pool _ Hwf _ _ Hk) as Hok.
  assert (∀ c ch, sig_ctx s c ch →
            ctx_id c ≠ Some (length (ctxs s)) ∧ ch ≠ length (chans s)) as Hs.
  { intros c ch (i & p & -> & Hl%lookup_lt_Some & Hlt). simpl.
    split; [intros [=]|]; lia. }
  destruct g as [c ch|c|c f|f|]; simpl in *.
  - destruct (Hs _ _ Hok). naive_solver.
  - destruct Hok as [ch Hok]. destruct (Hs _ _ Hok). naive_solver.
  - destruct Hok as (ch & Hok & ->). destruct (Hs _ _ Hok). simpl.
    naive_solver.
  - destruct Hok as (c & ch & Hok & ->). destruct (Hs _ _ Hok). simpl.
    naive_solver.
  - tauto.
Qed.

Lemma tracks_handled sigs p s :
  wf s →
  tracks sigs (length (ctxs s)) (length (chans s)) p
    (notifier_slot s) (waiter_slot p s) (handled sigs p s).
Proof.
  intros Hwf. unfold notifier_slot, waiter_slot. split.
  - rewrite handled_ctxs. by apply list_lookup_middle.
  - rewrite handled_chans, length_app. simpl. lia.
  - intros k g. rewrite handled_pool by done.
    intros [Hk|[Hge Hk]]%lookup_app_Some Hkw Hto.
    + by destruct (old_goroutine_foreign _ _ _ Hwf Hk).
    + destruct (is_done s p); simpl in *.
      * apply list_lookup_singleton_Some in Hk as [? _]. lia.
      * destruct (k - length (pool s)) as [|[|?]] eqn:E; simpl in Hk;
          [|exfalso; lia|done].
        injection Hk as <-. split; [lia|by left].
  - rewrite is_done_handled_new by done. intros Hd.
    rewrite handled_pool, Hd by done. left.
    by apply list_lookup_middle.
  - rewrite handled_pool, handled_handlers by done.
    rewrite lookup_insert_eq.
    destruct (is_done s p); simpl.
    + rewrite Nat.add_0_r, list_lookup_middle by done. done.
    + rewrite lookup_app_r by lia.
      by replace (length (pool s) + 1 - length (pool s)) with 1 by lia.
Qed.

(** The shape of the result of [Handle]. *)
Lemma Handle_inv sigs p s c s' :
  Handle sigs (Some p) s = Ok (Some c, s') →
  c = derived p s ∧ s' = handled sigs p s.
Proof. rewrite Handle_Some. by intros [= <- <-]. Qed.

Lemma Handle_tracks sigs s0 p c s1 :
  wf s0 → valid s0 p = true →
  Handle sigs (Some p) s0 = Ok (Some c, s1) →
  c = SignalCtx (length (ctxs s0)) (length (chans s0)) p ∧
  s1 = handled sigs p s0 ∧ wf s1 ∧
  tracks sigs (length (ctxs s0)) (length (chans s0)) p
    (notifier_slot s0) (waiter_slot p s0) s1.
Proof.
  intros Hwf Hv [-> ->]%Handle_inv.
  split_and!; [done|done|by apply wf_handled|by apply tracks_handled].
Qed.

Lemma quiet_handled sigs p s :
  wf s → is_done s p = false →
  quiet (length (ctxs s)) (length (chans s)) p (notifier_slot s)
    (handled sigs p s).
Proof.
  intros Hwf Hd. split_and!.
  - by rewrite is_done_handled_new.
  - rewrite handled_chans. by apply list_lookup_middle.
  - rewrite handled_pool, Hd by done. by apply list_lookup_middle.
Qed.

(** Every state of a process is well-formed. *)
Lemma reachable_wf sigs es s : run sigs es init = Some s → wf s.
Proof. apply wf_run, wf_init. Qed.

Lemma intercepted_true sig s ch sigs :
  handlers s !! ch = Some sigs → wants sigs sig = true →
  intercepted sig s = true.
Proof. intros Hh Hw. apply bool_decide_eq_true. by exists ch, sigs. Qed.

(** A signal somebody asked for does not end the process. *)
Lemma deliver_intercepted sig s :
  intercepted sig s = true → exited (deliver sig s) = exited s.
Proof. unfold deliver. by intros ->. Qed.

(** A signal nobody asked for gets the default treatment. *)
Lemma deliver_default sig s :
  intercepted sig s = false → default_exits sig = true →
  deliver sig s = set_exited true s.
Proof. unfold deliver. by intros -> ->. Qed.

(** ** Counting removals *)

Lemma removals_spec sigs ch es : ∀ s s',
  run sigs es s = Some s' → ch < length (chans s) →
  removals sigs ch es s =
  if bool_decide (is_Some (handlers s !! ch) ∧ handlers s' !! ch = None)
  then 1 else 0.
Proof.
  induction es as [|e es IH]; simpl; intros s s'.
  - intros [= <-] _. case_bool_decide as H; [|done].
    destruct H as [[x Hx] Hn]. congruence.
  - destruct (step sigs e s) as [s1|] eqn:Hs; [|done]. intros Hr Hlt.
    assert (ch < length (chans s1)) as Hlt1.
    { pose proof (extends_step _ _ _ _ Hs) as (_ & ? & _). lia. }
    rewrite (IH s1 s' Hr Hlt1).
    destruct (handlers s !! ch) as [x|] eqn:Hh.
    + destruct (handlers s1 !! ch) as [y|] eqn:Hh1.
      * repeat case_bool_decide; naive_solver.
      * pose proof (handlers_run_None _ _ _ _ _ Hr Hlt1 Hh1).
        repeat case_bool_decide; naive_solver.
    + pose proof (handlers_step_None _ _ _ _ _ Hs Hlt Hh) as Hh1.
      rewrite Hh1. repeat case_bool_decide; try done;
        destruct_and?; by destruct (is_Some_None (A:=list nat)).
Qed.

(** ** The handler table of the whole process *)

(** A step adds a registration only by a call of [Handle], for the signal
    set of the package, on the channel the call makes. *)
Lemma handlers_step_sub sigs e s s' ch x :
  step sigs e s = Some s' → handlers s' !! ch = Some x →
  handlers s !! ch = Some x ∨
  ∃ q, e = EvHandle (Some q) ∧ ch = length (chans s) ∧ x = sigs.
Proof.
  intros [_ H]%step_inv Hx. destruct e as [q|d|[q|]|sig|k alt].
  - destruct H as [_ ->]. left. by rewrite derive_handlers in Hx.
  - destruct H as (_ & _ & ->). left. by rewrite cancel_handlers in Hx.
  - destruct H as [_ ->]. rewrite handled_handlers in Hx.
    apply lookup_insert_Some in Hx as [[<- <-]|[_ Hx]]; [right; eauto|by left].
  - subst. by left.
  - subst. left. by rewrite deliver_handlers in Hx.
  - left. apply run_goroutine_inv in H.
    destruct (pool s !! k) as [[c ch'|c|c f|f|]|]; [| | | |done|done].
    + by destruct H as [[_ ->]|(y & _ & ->)].
    + subst. simpl in Hx. by rewrite cancel_handlers in Hx.
    + by destruct H as [_ ->].
    + subst. destruct f; simpl in Hx; rewrite ?cancel_handlers in Hx; [done|].
      by apply lookup_delete_Some in Hx as [_ Hx].
Qed.

Lemma only_asks_run sigs es : ∀ s s',
  only_asks sigs s → run sigs es s = Some s' → only_asks sigs s'.
Proof.
  induction es as [|e es IH]; simpl; intros s s' Ho.
  - by intros [= <-].
  - destruct (step sigs e s) as [s1|] eqn:Hs; [|done]. apply IH.
    intros ch x Hx.
    destruct (handlers_step_sub _ _ _ _ _ _ Hs Hx) as [?|(_ & _ & _ & ->)];
      [by eapply Ho|done].
Qed.

Lemma handle_calls_app es1 es2 :
  handle_calls (es1 ++ es2) = handle_calls es1 + handle_calls es2.
Proof.
  induction es1 as [|[] es1 IH]; simpl; lia.
Qed.

(** Without calls of [Handle] the handler table only shrinks. *)
Lemma handlers_run_sub sigs es : ∀ s s' ch x,
  run sigs es s = Some s' → handle_calls es = 0 →
  handlers s' !! ch = Some x → handlers s !! ch = Some x.
Proof.
  induction es as [|e es IH]; simpl; intros s s' ch x.
  - by intros [= <-].
  - destruct (step sigs e s) as [s1|] eqn:Hs; [|done]. intros Hr Hc Hx.
    assert (handle_calls es = 0 ∧ ∀ q, e ≠ EvHandle q) as [Hc' Hne].
    { destruct e; try done. }
    pose proof (IH _ _ _ _ Hr Hc' Hx) as Hx1.
    destruct (handlers_step_sub _ _ _ _ _ _ Hs Hx1) as [?|(q & -> & _)];
      [done|by destruct (Hne (Some q))].
Qed.

(** ** The loop goroutine *)

Lemma cancel_loop c s : loop (cancel c s) = loop s.
Proof. unfold cancel. destruct (ctx_id c); [|done]. by destruct (is_done s c). Qed.

Lemma derive_loop mk p s : loop (derive mk p s) = loop s.
Proof. unfold derive. destruct (is_done s p); [by rewrite cancel_loop|done]. Qed.

Lemma deliver_loop sig s : loop (deliver sig s) = loop s.
Proof.
  unfold deliver. destruct (intercepted sig s); [done|].
  by destruct (default_exits sig).
Qed.

Lemma call_loop f s : loop (call f s) = loop s.
Proof. destruct f; simpl; by rewrite cancel_loop. Qed.

(** After a call of [Handle] the loop goroutine runs if it did before, or
    if [signal.Notify] had a signal to enable and so started it. *)
Lemma handled_loop sigs p s :
  loop (handled sigs p s) = loop s || enables sigs.
Proof.
  unfold handled, registration. simpl.
  destruct (is_done _ _); simpl; by rewrite derive_loop.
Qed.

(** The loop goroutine is started by a call of [Handle] and by nothing
    else, and it never ends. *)
Lemma loop_step sigs e s s' :
  step sigs e s = Some s' →
  (loop s = true → loop s' = true) ∧
  (loop s' = true → loop s = true ∨ ∃ q, e = EvHandle (Some q)).
Proof.
  intros [_ H]%step_inv. destruct e as [q|d|[q|]|sig|k alt].
  - destruct H as [_ ->]. rewrite derive_loop. auto.
  - destruct H as (_ & _ & ->). rewrite cancel_loop. auto.
  - destruct H as [_ ->]. rewrite handled_loop. split; [by intros ->|eauto].
  - subst. simpl. auto.
  - subst. rewrite deliver_loop. auto.
  - apply run_goroutine_inv in H.
    destruct (pool s !! k) as [[c ch'|c|c f|f|]|]; [| | | |done|done].
    + destruct H as [[_ ->]|(y & _ & ->)]; simpl; auto.
    + subst. simpl. rewrite cancel_loop. auto.
    + destruct H as [_ ->]. simpl. auto.
    + subst. simpl. rewrite call_loop. auto.
Qed.

Lemma loop_run sigs es : ∀ s s',
  run sigs es s = Some s' → loop s = true → loop s' = true.
Proof.
  induction es as [|e es IH]; simpl; intros s s'.
  - by intros [= <-].
  - destruct (step sigs e s) as [s1|] eqn:Hs; [|done]. intros Hr Hl.
    apply (IH s1); [done|]. by apply (loop_step _ _ _ _ Hs).
Qed.

(** ** The package variable *)

(** As long as the program does not assign to [Signals], the process is a
    process of the semantics with that signal set. *)
Lemma prun_no_assign acts : ∀ g g',
  prun acts g = Some g' → assigns acts = 0 →
  var_Signals g' = var_Signals g ∧
  run (var_Signals g) (events acts) (proc g) = Some (proc g').
Proof.
  induction acts as [|[sigs|e] acts IH]; simpl; intros g g'.
  - by intros [= <-].
  - done.
  - destruct (step (var_Signals g) e (proc g)) as [s1|] eqn:Hs; [|done].
    intros Hr Ha. destruct (IH _ _ Hr Ha) as [Hv Hrun]. by simpl in *.
Qed.

(** * The claims *)

(** C1. For every parent context, the context that [Handle] derives is done
    exactly when the parent is done or a matching signal was delivered,
    whichever comes first.  In every state [s] the process reaches after the
    call: if the parent is done (it may have been done before the call), the
    derived context is done; if the derived context is done, the parent is
    done or a signal of the registered set was delivered since the call, so
    that, when neither ever happens, the derived context stays not-done;
    and once a matching signal is delivered, the notifier goroutine is never
    blocked and its second step at the latest leaves the derived context
    done. *)
Theorem handle_done_exactly_when
  (Signals : list nat) (s0 s1 s : state) (p c : ctx) (es : list event) :
  wf s0 → valid s0 p = true →
  Handle Signals (Some p) s0 = Ok (Some c, s1) →
  run Signals es s1 = Some s →
  (is_done s p = true → is_done s c = true) ∧
  (is_done s c = true →
     is_done s p = true ∨
     ∃ sig, EvSignal sig ∈ es ∧ wants Signals sig = true) ∧
  (is_done s p = false →
     (∀ sig, EvSignal sig ∈ es → wants Signals sig = false) →
     is_done s c = false) ∧
  (∀ sig es' s', wants Signals sig = true →
     run Signals (EvSignal sig :: es') s = Some s' →
     (2 ≤ times_run (notifier_slot s0) es' → is_done s' c = true) ∧
     (is_done s' c = false → exited s' = false →
      ∀ alt, is_Some (step Signals (EvRun (notifier_slot s0) alt) s'))).
Proof.
  intros Hwf0 Hv HH Hr.
  destruct (Handle_tracks _ _ _ _ _ Hwf0 Hv HH) as (-> & -> & Hwf1 & Ht1).
  pose proof (wf_run _ _ _ _ Hwf1 Hr) as Hwf.
  pose proof (tracks_run _ _ _ _ _ _ _ _ _ Hwf1 Ht1 Hr) as Ht.
  assert (is_done s (SignalCtx (length (ctxs s0)) (length (chans s0)) p) = true →
          is_done s p = true ∨
          ∃ sig, EvSignal sig ∈ es ∧ wants Signals sig = true) as Hcause.
  { intros Hd. destruct (is_done s0 p) eqn:Hp0.
    - left. apply (extends_done s0); [|done].
      eapply extends_trans; [apply extends_handled|by eapply extends_run].
    - eapply quiet_run; [exact Hwf1|exact Ht1| |exact Hr|exact Hd].
      by apply quiet_handled. }
  split_and!.
  - apply is_done_ancestor; [done|by eapply tracks_valid|done].
  - done.
  - intros Hp Hno.
    destruct (is_done s _) eqn:Hd; [|done].
    destruct (Hcause eq_refl) as [?|(sig & Hin & Hw)]; [congruence|].
    rewrite (Hno _ Hin) in Hw. done.
  - intros sig es' s' Hw. simpl.
    destruct (step Signals (EvSignal sig) s) as [s2|] eqn:Hs; [|done].
    intros Hr'.
    pose proof (wf_step _ _ _ _ Hwf Hs) as Hwf2.
    pose proof (tracks_step _ _ _ _ _ _ _ _ _ Hwf Ht Hs) as Ht2.
    assert (lag (length (ctxs s0)) (length (chans s0)) p (notifier_slot s0) 2 s2)
      as Hl.
    { apply step_inv in Hs as [_ ->]. by eapply deliver_lag. }
    split.
    + intros Hk. by eapply lag_run.
    + intros Hnd Hex alt. eapply lag_enabled; [|done..].
      by eapply lag_run_stable.
Qed.

(** C2, as the claim states it, fails when [Handle] was called more than
    once.  Two calls on the root context and one interrupt: the notifier of
    the first call cancels its context and the waiter of the first call
    removes its registration; the registration of the second call is still
    in place, so the next interrupt is intercepted all the same and the
    process lives. *)
Lemma removed_yet_intercepted :
  ∃ s1 s,
    Handle (Signals_on Unix) (Some Background) init = Ok (Some ctxA, s1) ∧
    run (Signals_on Unix)
      [EvHandle (Some Background); EvSignal SIGINT;
       EvRun 0 false; EvRun 0 false; EvRun 1 false; EvRun 1 false] s1
      = Some s ∧
    is_done s ctxA = true ∧
    handlers s !! 0 = None ∧
    wants (Signals_on Unix) SIGINT = true ∧
    default_exits SIGINT = true ∧
    intercepted SIGINT s = true ∧
    step (Signals_on Unix) (EvSignal SIGINT) s = Some (deliver SIGINT s) ∧
    exited (deliver SIGINT s) = false.
Proof. eexists _, _. split_and!; vm_compute; reflexivity. Qed.

(** C2, amended. The registration that a call of [Handle] makes is removed
    exactly once, when the derived context has become done.  It is made by
    the call and is in place as long as the derived context is not done;
    over any run of the process it is removed at most once ([removals]
    counts 1 exactly when it is gone, after which it stays gone and is not
    removed again), and only after the derived context is done; once the
    derived context is done, for whatever reason, the waiter goroutine is
    never blocked and its second step at the latest removes the
    registration.  While the registration is in place a matching signal is
    intercepted and the process lives.  After the removal a matching signal
    no longer reaches the channel of this registration; it is still
    intercepted exactly when another registration asks for it, and gets the
    platform default otherwise.  When the call made the only registration
    of the process (none before it, no call after it), the handler table is
    empty after the removal and a matching signal whose default is to exit
    ends the process. *)
Theorem registration_removed_once
  (Signals : list nat) (s0 s1 s : state) (p c : ctx) (es : list event) :
  wf s0 → valid s0 p = true →
  Handle Signals (Some p) s0 = Ok (Some c, s1) →
  run Signals es s1 = Some s →
  ∃ ch, ctx_chan c = Some ch ∧
    (handlers s0 !! ch = None ∧ handlers s1 !! ch = Some Signals) ∧
    (is_done s c = false → handlers s !! ch = Some Signals) ∧
    (handlers s !! ch = Some Signals ∨
     handlers s !! ch = None ∧ is_done s c = true) ∧
    removals Signals ch es s1 =
      (if bool_decide (handlers s !! ch = None) then 1 else 0) ∧
    (∀ es' s', run Signals es' s = Some s' →
       (handlers s !! ch = None →
        handlers s' !! ch = None ∧ removals Signals ch es' s = 0) ∧
       (is_done s c = true → 2 ≤ times_run (waiter_slot p s0) es' →
        handlers s' !! ch = None)) ∧
    (is_done s c = true → is_Some (handlers s !! ch) → exited s = false →
     ∀ alt, is_Some (step Signals (EvRun (waiter_slot p s0) alt) s)) ∧
    (∀ sig, wants Signals sig = true →
       (is_Some (handlers s !! ch) →
        intercepted sig s = true ∧ exited (deliver sig s) = exited s) ∧
       (handlers s !! ch = None →
        chans (deliver sig s) !! ch = chans s !! ch ∧
        (intercepted sig s = true ↔
         ∃ ch' sigs, ch' ≠ ch ∧ handlers s !! ch' = Some sigs ∧
                     wants sigs sig = true) ∧
        (intercepted sig s = false → default_exits sig = true →
         deliver sig s = set_exited true s) ∧
        (handlers s0 = ∅ → handle_calls es = 0 →
         handlers s = ∅ ∧ intercepted sig s = false ∧
         (default_exits sig = true → exited s = false →
          step Signals (EvSignal sig) s = Some (set_exited true s))))).
Proof.
  intros Hwf0 Hv HH Hr.
  destruct (Handle_tracks _ _ _ _ _ Hwf0 Hv HH) as (-> & -> & Hwf1 & Ht1).
  pose proof (wf_run _ _ _ _ Hwf1 Hr) as Hwf.
  pose proof (tracks_run _ _ _ _ _ _ _ _ _ Hwf1 Ht1 Hr) as Ht.
  set (ch := length (chans s0)) in *.
  assert (handlers (handled Signals p s0) !! ch = Some Signals) as Hh1.
  { rewrite handled_handlers. apply lookup_insert_eq. }
  assert (handlers s !! ch = Some Signals ∨
          handlers s !! ch = None ∧
          is_done s (SignalCtx (length (ctxs s0)) ch p) = true) as Hcases.
  { destruct (handlers s !! ch) as [x|] eqn:Hh.
    - left. destruct (is_done s (SignalCtx (length (ctxs s0)) ch p)) eqn:Hd.
      + pose proof (tr_waiter _ _ _ _ _ _ _ Ht) as Hw.
        destruct (pool s !! _) as [[| | | |]|]; try done.
        * destruct Hw as (_ & _ & ?). congruence.
        * destruct Hw as (_ & ? & _). congruence.
        * destruct Hw as [? _]. congruence.
      + destruct (tracks_registered _ _ _ _ _ _ _ Ht Hd) as [? _]. congruence.
    - right. split; [done|].
      by destruct (tracks_released _ _ _ _ _ _ _ Ht Hh). }
  exists ch. split_and!; [done| |done| |done| | | |].
  - destruct (handlers s0 !! ch) as [x|] eqn:Hh; [|done].
    assert (ch < length (chans s0)); [|unfold ch in *; lia].
    apply (wf_handlers _ Hwf0). eauto.
  - intros Hd. by destruct (tracks_registered _ _ _ _ _ _ _ Ht Hd).
  - rewrite (removals_spec _ _ _ _ _ Hr) by apply Ht1.
    rewrite Hh1. repeat case_bool_decide; naive_solver.
  - intros es' s' Hr'. split.
    + intros Hh. split.
      * eapply handlers_run_None; [done|apply Ht|done].
      * rewrite (removals_spec _ _ _ _ _ Hr') by apply Ht.
        rewrite Hh. case_bool_decide as Hb; [|done].
        destruct Hb as [[? ?] _]. done.
    + intros Hd Hk. eapply wlag_run; [exact Hwf|exact Ht| |exact Hr'|exact Hk].
      eapply done_wlag; [exact Ht|exact Hd].
  - intros Hd Hs Hex alt. by eapply wlag_enabled.
  - intros sig Hw. split.
    + intros [x Hx].
      assert (intercepted sig s = true) as Hi.
      { destruct Hcases as [Hs|[? _]]; [|congruence].
        by apply (intercepted_true sig s ch Signals). }
      split; [done|by apply deliver_intercepted].
    + intros Hh. split_and!; [| |apply deliver_default|].
      * apply deliver_chan_unwanted. intros sigs. by rewrite Hh.
      * unfold intercepted. rewrite bool_decide_eq_true. split.
        -- intros (ch' & x & Hx & Hwx). exists ch', x.
           split_and!; [congruence|done|done].
        -- intros (ch' & x & _ & Hx & Hwx). by exists ch', x.
      * intros Hempty Hcalls.
        assert (handlers s = ∅) as Hs.
        { apply map_empty. intros ch'.
          destruct (handlers s !! ch') as [x|] eqn:Hx; [|done]. exfalso.
          pose proof (handlers_run_sub _ _ _ _ _ _ Hr Hcalls Hx) as Hx1.
          rewrite handled_handlers, Hempty in Hx1.
          apply lookup_insert_Some in Hx1 as [[<- _]|[_ Hx1]]; [|done].
          unfold ch in Hh. congruence. }
        assert (intercepted sig s = false) as Hi.
        { apply bool_decide_eq_false. rewrite Hs.
          intros (ch' & x & Hx & _). done. }
        split_and!; [done|done|]. intros Hdef Hex.
        unfold step. rewrite Hex. f_equal. by apply deliver_default.
Qed.

(** C3. The done indicator of the derived context is monotonic and
    terminal.  The context is new at the call, hence not done (Active); on
    return it is done exactly when the first trigger, a parent that is done,
    is already there.  No step of the process takes a done context back:
    once done it is done in every later state.  A step at which it becomes
    done is a step that leaves the parent done, or the step of its notifier
    that cancels it after a signal was received; the explicit trigger, the
    waiter's [cancel()], runs only when the context is done already. *)
Theorem done_monotonic_terminal
  (Signals : list nat) (s0 s1 s s' : state) (p c : ctx) (es : list event)
  (e : event) :
  wf s0 → valid s0 p = true →
  Handle Signals (Some p) s0 = Ok (Some c, s1) →
  run Signals es s1 = Some s →
  step Signals e s = Some s' →
  is_done s0 c = false ∧
  is_done s1 c = is_done s0 p ∧
  (is_done s c = true → is_done s' c = true) ∧
  (is_done s c = true →
   ∀ es' s'', run Signals es' s = Some s'' → is_done s'' c = true) ∧
  (is_done s c = false → is_done s' c = true →
   is_done s' p = true ∨
   ∃ alt, e = EvRun (notifier_slot s0) alt ∧
          pool s !! notifier_slot s0 = Some (Notifier_cancel c)) ∧
  (∀ alt, e = EvRun (waiter_slot p s0) alt →
   pool s !! waiter_slot p s0 = Some (Waiter_call (StopOf c (length (chans s0)))) →
   is_done s c = true).
Proof.
  intros Hwf0 Hv HH Hr Hs.
  destruct (Handle_tracks _ _ _ _ _ Hwf0 Hv HH) as (-> & -> & Hwf1 & Ht1).
  pose proof (wf_run _ _ _ _ Hwf1 Hr) as Hwf.
  pose proof (tracks_run _ _ _ _ _ _ _ _ _ Hwf1 Ht1 Hr) as Ht.
  split_and!.
  - apply (is_done_false _ _ (length (ctxs s0))); [done|].
    intros H%(wf_closed _ Hwf0). lia.
  - by apply is_done_handled_new.
  - apply extends_done. by eapply extends_step.
  - intros Hd es' s'' Hr'. by apply (extends_done s s'' _ (extends_run _ _ _ _ Hr')).
  - intros Hnd Hd. by eapply done_flip_step.
  - intros alt -> Hw. pose proof (tr_waiter _ _ _ _ _ _ _ Ht) as Hw'.
    rewrite Hw in Hw'. by destruct Hw' as (_ & _ & ?).
Qed.

(** C4. The cleanup path of a call is idempotent.  The cancel function that
    [Handle] gives its waiter is the [stop] of the derived context; running
    it cannot fail ([call] is a total function on states), it leaves the
    derived context done and its registration removed; running it a second
    time changes nothing, and running it after the notifier has already
    cancelled the context (the signal path came first) gives the same state
    as running it alone.  Cancelling twice is cancelling once, and removing
    the registration twice is removing it once. *)
Theorem cleanup_idempotent
  (Signals : list nat) (s0 s1 : state) (p c : ctx) :
  Handle Signals (Some p) s0 = Ok (Some c, s1) →
  ∃ ch stop,
    ctx_chan c = Some ch ∧ stop = StopOf c ch ∧
    last (pool s1) = Some (Waiter_recv c stop) ∧
    ∀ s,
      is_done (call stop s) c = true ∧
      handlers (call stop s) !! ch = None ∧
      call stop (call stop s) = call stop s ∧
      call stop (cancel c s) = call stop s ∧
      cancel c (cancel c s) = cancel c s ∧
      Stop ch (Stop ch s) = Stop ch s.
Proof.
  intros [-> ->]%Handle_inv.
  exists (length (chans s0)), (StopOf (derived p s0) (length (chans s0))).
  split_and!; [done|done|apply last_snoc|]. intros s.
  set (c := derived p s0). set (ch := length (chans s0)).
  assert (∀ s', cancel c (cancel c s') = cancel c s') as Hcc.
  { intros s'. unfold cancel at 1. simpl ctx_id. cbv iota.
    by rewrite (is_done_cancel_self c s'). }
  assert (∀ s', Stop ch (Stop ch s') = Stop ch s') as Hss.
  { intros s'. unfold Stop, set_handlers. simpl. f_equal. apply delete_delete_eq. }
  assert (∀ s', cancel c (Stop ch s') = Stop ch (cancel c s')) as Hcs.
  { intros s'. unfold cancel. simpl ctx_id. cbv iota.
    change (is_done (Stop ch s') c) with (is_done s' c).
    by destruct (is_done s' c). }
  split_and!.
  - simpl. change (is_done (Stop ch ?s') ?d) with (is_done s' d).
    by apply is_done_cancel_self.
  - simpl. apply lookup_delete_eq.
  - simpl. by rewrite Hcs, Hcc, Hss.
  - simpl. by rewrite Hcc.
  - apply Hcc.
  - apply Hss.
Qed.

(** C5. [Handle] returns at once, and what it returns is a new context
    derived from the parent.  For every parent context and in every state of
    the process, whatever its goroutines are doing, the call returns: it
    neither panics nor waits, and each of its statements returns in whatever
    state it is executed, so that nothing the other goroutines do between
    them can hold the call up.  The context it returns is not nil, has the
    parent it was given as its parent, did not exist before the call and is
    a context of the process from then on, done exactly if the parent is.
    It can be used at once: a context can be derived from it, by
    [context.WithCancel] and by [Handle] itself.  As an event of the process
    the call is always enabled.  The work of the waiter is not awaited: no
    goroutine has run in between, the goroutines that were there are as they
    were, and the waiter the call started is the last goroutine of the pool,
    still at its first statement, with the registration it is to remove
    still in place; when the parent is not done the body of the waiter
    cannot even begin, it waits, and neither of the goroutines the call
    started can take a step, while the call has returned. *)
Theorem Handle_returns_at_once (Signals : list nat) (p : ctx) (s : state) :
  ∃ c s',
    Handle Signals (Some p) s = Ok (Some c, s') ∧
    (∀ s1, ∃ r s2, NotifyContext (Some p) Signals s1 = Ok (r, s2)) ∧
    (∀ g s2, go g s2 = Ok (tt, set_pool (λ l, l ++ [g]) s2)) ∧
    ctx_parent c = Some p ∧
    ctx_chan c = Some (length (chans s)) ∧
    valid s c = false ∧
    valid s' c = true ∧
    (wf s → is_done s' c = is_done s p) ∧
    (∃ d s'', WithCancel (Some c) s' = Ok ((d, CancelOf d), s'') ∧
              ctx_parent d = Some c ∧ valid s'' d = true) ∧
    (exited s = false →
     is_Some (step Signals (EvWithCancel c) s') ∧
     is_Some (step Signals (EvHandle (Some c)) s')) ∧
    (exited s = false → valid s p = true →
     step Signals (EvHandle (Some p)) s = Some s') ∧
    (∀ k g, pool s !! k = Some g → pool s' !! k = Some g) ∧
    last (pool s') = Some (Waiter_recv c (StopOf c (length (chans s)))) ∧
    handlers s' !! length (chans s) = Some Signals ∧
    (wf s →
     pool s' =
       pool s ++ (if is_done s p then []
                  else [Notifier_select c (length (chans s))])
              ++ [Waiter_recv c (StopOf c (length (chans s)))] ∧
     waiter c (StopOf c (length (chans s))) s' =
       (if is_done s p
        then Ok (tt, call (StopOf c (length (chans s))) s')
        else Blocked) ∧
     (is_done s p = false →
      ∀ g alt, length (pool s) ≤ g → step Signals (EvRun g alt) s' = None)) ∧
    exited s' = exited s.
Proof.
  exists (derived p s), (handled Signals p s).
  assert (valid (handled Signals p s) (derived p s) = true) as Hvalid.
  { apply (valid_lookup _ (length (ctxs s))); [done|].
    rewrite handled_ctxs. by apply list_lookup_middle. }
  split_and!.
  - apply Handle_Some.
  - intros s1. eexists _, _. apply NotifyContext_Some.
  - done.
  - done.
  - done.
  - unfold valid, derived. simpl. apply bool_decide_eq_false.
    intros H%lookup_lt_Some. lia.
  - done.
  - intros Hwf. by apply is_done_handled_new.
  - eexists _, _. unfold WithCancel, bind. rewrite withCancel_Some.
    split_and!; [reflexivity|done|].
    apply (valid_lookup _ (length (ctxs (handled Signals p s)))); [done|].
    rewrite derive_ctxs. by apply list_lookup_middle.
  - intros Hex. unfold step. rewrite handled_exited, Hex. simpl.
    rewrite Hvalid. eauto.
  - intros Hex Hv. unfold step. rewrite Hex. simpl. rewrite Hv.
    by rewrite Handle_Some.
  - intros k g Hk. unfold handled, registration. simpl.
    destruct (is_done _ _); simpl; rewrite derive_pool; simpl;
      repeat apply lookup_app_l_Some; done.
  - apply last_snoc.
  - rewrite handled_handlers. apply lookup_insert_eq.
  - intros Hwf.
    pose proof (is_done_handled_new Signals p s Hwf) as Hd.
    pose proof (handled_pool Signals p s Hwf) as Hp.
    split_and!.
    + done.
    + unfold waiter, bind, recv_done, modify. rewrite Hd.
      by destruct (is_done s p).
    + intros Hnd g alt Hg.
      assert (chans (handled Signals p s) !! length (chans s) = Some None)
        as Hc.
      { rewrite handled_chans. by apply list_lookup_middle. }
      rewrite Hnd in Hd, Hp.
      set (s1 := handled Signals p s) in *. unfold step.
      destruct (exited s1); [done|].
      unfold run_goroutine, recv_done. rewrite Hp.
      rewrite lookup_app_r by done.
      destruct (g - length (pool s)) as [|[|k]]; simpl; [| |done].
      * change (chans (registration Signals p s)) with (chans s1).
        by rewrite Hc, Hd.
      * by rewrite Hd.
  - apply handled_exited.
Qed.

Lemma not_derived_from_parent s c q :
  wf s → valid s c = true → ctx_parent c = Some q → derived_from c q = false.
Proof.
  intros Hwf Hv Hq.
  destruct (valid_inv _ _ Hv) as [->|(i & Hi & Hl)]; [done|].
  unfold derived_from. rewrite Hi. apply bool_decide_eq_false. intros Hin.
  destruct (wf_parent _ Hwf _ _ _ Hl Hq) as [_ Hlt].
  specialize (Hlt _ Hin). lia.
Qed.

Lemma is_done_call_frame s f x :
  wf s → valid s x = true → derived_from (cf_ctx f) x = false →
  is_done (call f s) x = is_done s x.
Proof.
  intros Hwf Hv Hd. rewrite is_done_call. unfold derived_from in Hd.
  destruct (ctx_id (cf_ctx f)) as [j|] eqn:Hj; [|done].
  by apply (is_done_cancel_frame s _ j).
Qed.

(** C6. Derivations are independent, and cancellation never goes up.  Take
    two calls of [Handle], the second on a parent that is not derived from
    the context of the first.  In every later state, running a cancel
    function of one derived context ([cancel] as the notifier does, or
    [stop] as the waiter does) changes neither the done indicator of the
    other derived context nor that of its own parent; and so does the step
    of the process in which a goroutine of the first call cancels. *)
Theorem derivations_independent
  (Signals : list nat) (sa sa' sb sb' s : state) (p1 p2 c1 c2 : ctx)
  (es es' : list event) :
  wf sa → valid sa p1 = true →
  Handle Signals (Some p1) sa = Ok (Some c1, sa') →
  run Signals es sa' = Some sb →
  valid sb p2 = true →
  Handle Signals (Some p2) sb = Ok (Some c2, sb') →
  run Signals es' sb' = Some s →
  derived_from c1 p2 = false →
  (∀ f1 f2, cf_ctx f1 = c1 → cf_ctx f2 = c2 →
     is_done (call f1 s) c2 = is_done s c2 ∧
     is_done (call f2 s) c1 = is_done s c1 ∧
     is_done (call f1 s) p1 = is_done s p1 ∧
     is_done (call f2 s) p2 = is_done s p2) ∧
  (∀ k alt s',
     pool s !! k = Some (Notifier_cancel c1) ∨
     (∃ f, cf_ctx f = c1 ∧ pool s !! k = Some (Waiter_call f)) →
     step Signals (EvRun k alt) s = Some s' →
     is_done s' c2 = is_done s c2 ∧ is_done s' p1 = is_done s p1).
Proof.
  intros Hwfa Hv1 HH1 Hr1 Hv2 HH2 Hr2 Hind.
  destruct (Handle_tracks _ _ _ _ _ Hwfa Hv1 HH1) as (-> & -> & Hwfa' & Hta).
  pose proof (wf_run _ _ _ _ Hwfa' Hr1) as Hwfb.
  pose proof (tracks_run _ _ _ _ _ _ _ _ _ Hwfa' Hta Hr1) as Htb.
  destruct (Handle_tracks _ _ _ _ _ Hwfb Hv2 HH2) as (-> & -> & Hwfb' & Htb2).
  pose proof (wf_run _ _ _ _ Hwfb' Hr2) as Hwf.
  pose proof (tracks_run _ _ _ _ _ _ _ _ _ Hwfb' Htb2 Hr2) as Ht2.
  set (c1 := SignalCtx (length (ctxs sa)) (length (chans sa)) p1) in *.
  set (c2 := SignalCtx (length (ctxs sb)) (length (chans sb)) p2) in *.
  assert (extends sb s) as Hbs.
  { eapply extends_trans; [apply extends_handled|by eapply extends_run]. }
  assert (extends sa s) as Has.
  { eapply extends_trans; [apply extends_handled|].
    eapply extends_trans; [by eapply extends_run|done]. }
  pose proof (tracks_valid _ _ _ _ _ _ _ Htb) as Hvc1. fold c1 in Hvc1.
  assert (valid s c1 = true) as Hvc1s by apply (extends_valid sb s c1 Hbs Hvc1).
  assert (valid s c2 = true) as Hvc2s by apply (tracks_valid _ _ _ _ _ _ _ Ht2).
  assert (valid s p1 = true) as Hvp1s by apply (extends_valid sa s p1 Has Hv1).
  assert (valid s p2 = true) as Hvp2s by apply (extends_valid sb s p2 Hbs Hv2).
  assert (length (ctxs sa) < length (ctxs sb)) as Hlt.
  { pose proof (tr_ctx _ _ _ _ _ _ _ Htb) as Hl. by apply lookup_lt_Some in Hl. }
  assert (derived_from c1 c2 = false) as H12.
  { unfold derived_from in *. simpl in *. apply bool_decide_eq_false.
    apply bool_decide_eq_false in Hind.
    simpl. intros [?|?]%elem_of_cons; [lia|done]. }
  assert (derived_from c2 c1 = false) as H21.
  { unfold derived_from. simpl. apply bool_decide_eq_false. intros Hin.
    pose proof (chain_le _ _ _ _ Hwfb (tr_ctx _ _ _ _ _ _ _ Htb) Hin). lia. }
  assert (derived_from c1 p1 = false) as H1p.
  { by apply (not_derived_from_parent s). }
  assert (derived_from c2 p2 = false) as H2p.
  { by apply (not_derived_from_parent s). }
  assert (∀ f1, cf_ctx f1 = c1 →
            is_done (call f1 s) c2 = is_done s c2 ∧
            is_done (call f1 s) p1 = is_done s p1) as Hf1.
  { intros f1 E. split; apply is_done_call_frame; by rewrite ?E. }
  split.
  - intros f1 f2 E1 E2. destruct (Hf1 f1 E1) as [? ?].
    split_and!; [done| |done|]; apply is_done_call_frame; by rewrite ?E2.
  - intros k alt s' Hk [_ Hs]%step_inv. apply run_goroutine_inv in Hs.
    destruct Hk as [Hk|(f & E & Hk)]; rewrite Hk in Hs; subst s'.
    + apply (Hf1 (CancelOf c1) eq_refl).
    + apply (Hf1 f E).
Qed.

(** C7, as the claim states it, fails: with an empty signal set the derived
    context is not a pass-through of its parent.  [signal.Notify] without
    signals asks for all of them, so any signal cancels the derived context,
    here one derived from the root context, which is never done. *)
Lemma empty_signal_set_not_passthrough :
  ∃ s1 s,
    Handle [] (Some Background) init = Ok (Some (SignalCtx 0 0 Background), s1) ∧
    run [] [EvSignal SIGINT; EvRun 0 false; EvRun 0 false] s1 = Some s ∧
    is_done s (SignalCtx 0 0 Background) = true ∧
    is_done s Background = false.
Proof. eexists _, _. split_and!; vm_compute; reflexivity. Qed.

(** C7, amended.  [Handle] has no error conditions: for every valid parent
    context it returns a context; it validates nothing itself, it fails
    exactly when [signal.NotifyContext] does, with the same message.  When
    the signal set is empty the registration asks for every signal: any
    signal that is delivered is received by the notifier, which is never
    blocked and whose second step at the latest leaves the derived context
    done (the parent being done does so too, as for every signal set). *)
Theorem Handle_cannot_fail (Signals : list nat) (s : state) (p : ctx) :
  wf s → valid s p = true →
  (∃ c s', Handle Signals (Some p) s = Ok (Some c, s')) ∧
  (∀ q msg, Handle Signals q s = Panic msg ↔
            NotifyContext q Signals s = Panic msg) ∧
  (∀ c s1 sig es s',
     Handle [] (Some p) s = Ok (Some c, s1) →
     wants [] sig = true ∧
     handlers s1 !! length (chans s) = Some [] ∧
     (run [] es s1 = Some s' → is_done s' p = true → is_done s' c = true) ∧
     (run [] (EvSignal sig :: es) s1 = Some s' →
      (2 ≤ times_run (notifier_slot s) es → is_done s' c = true) ∧
      (is_done s' c = false → exited s' = false →
       ∀ alt, is_Some (step [] (EvRun (notifier_slot s) alt) s')))).
Proof.
  intros Hwf Hv. split_and!.
  - rewrite Handle_Some. eauto.
  - intros [q|] msg.
    + rewrite Handle_Some, NotifyContext_Some. split; intros H; discriminate H.
    + rewrite Handle_None, NotifyContext_None. split; by intros [= <-].
  - intros c s1 sig es s' HH.
    destruct (Handle_tracks _ _ _ _ _ Hwf Hv HH) as (-> & -> & Hwf1 & Ht1).
    split_and!.
    + done.
    + rewrite handled_handlers. apply lookup_insert_eq.
    + intros Hr.
      pose proof (wf_run _ _ _ _ Hwf1 Hr) as Hwf'.
      pose proof (tracks_run _ _ _ _ _ _ _ _ _ Hwf1 Ht1 Hr) as Ht'.
      apply is_done_ancestor; [done|by eapply tracks_valid|done].
    + simpl.
      destruct (step [] (EvSignal sig) (handled [] p s)) as [s2|] eqn:Hs; [|done].
      intros Hr.
      pose proof (wf_step _ _ _ _ Hwf1 Hs) as Hwf2.
      pose proof (tracks_step _ _ _ _ _ _ _ _ _ Hwf1 Ht1 Hs) as Ht2.
      assert (lag (length (ctxs s)) (length (chans s)) p (notifier_slot s) 2 s2)
        as Hl.
      { apply step_inv in Hs as [_ ->]. by eapply deliver_lag. }
      split.
      * intros Hk. by eapply lag_run.
      * intros Hnd Hex alt. eapply lag_enabled; [|done..].
        by eapply lag_run_stable.
Qed.

(** C8, as the claim states it, fails: the signal set is a variable of the
    package, and [Handle] reads it at every call.  A program that assigns
    to it between two calls gets two registrations for different sets, and
    the variable no longer holds its initial value. *)
Lemma Signals_reassigned :
  ∃ g,
    prun [Do (EvHandle (Some Background)); Assign [SIGHUP];
          Do (EvHandle (Some Background))] (start Unix) = Some g ∧
    var_Signals g = [SIGHUP] ∧
    var_Signals g ≠ var_Signals (start Unix) ∧
    handlers (proc g) !! 0 = Some [SIGINT; SIGTERM] ∧
    handlers (proc g) !! 1 = Some [SIGHUP].
Proof. eexists. split_and!; [vm_compute; reflexivity..|done|done|done]. Qed.

(** C8, amended.  The signal set is a variable with an initial value fixed
    by the platform: the interrupt signal and, on unix-like platforms, the
    termination signal as well; the platform default for each of them is to
    exit.  Every call of [Handle] registers the value the variable has at
    the time of the call.  An assignment changes the variable and nothing
    else, the registrations made before keep their sets; and nothing but an
    assignment changes the variable.  So in a process that never assigns to
    it the variable holds its initial value throughout, every registration
    is for that set, and the process is a process of the semantics above
    with that set. *)
Theorem Signals_read_at_each_call :
  (∀ pf, var_Signals (start pf) = Signals_on pf) ∧
  Signals_on Unix = [SIGINT; SIGTERM] ∧
  Signals_on NonUnix = [SIGINT] ∧
  (∀ pf sig, sig ∈ Signals_on pf → default_exits sig = true) ∧
  (∀ g p, exited (proc g) = false → valid (proc g) p = true →
     ∃ c s',
       Handle (var_Signals g) (Some p) (proc g) = Ok (Some c, s') ∧
       pstep (Do (EvHandle (Some p))) g
         = Some {| var_Signals := var_Signals g; proc := s' |} ∧
       handlers s' !! length (chans (proc g)) = Some (var_Signals g) ∧
       ∀ ch, ch < length (chans (proc g)) →
             handlers s' !! ch = handlers (proc g) !! ch) ∧
  (∀ g sigs, exited (proc g) = false →
     pstep (Assign sigs) g = Some {| var_Signals := sigs; proc := proc g |}) ∧
  (∀ a g g', pstep a g = Some g' → var_Signals g' ≠ var_Signals g →
     ∃ sigs, a = Assign sigs) ∧
  (∀ pf acts g, prun acts (start pf) = Some g → assigns acts = 0 →
     var_Signals g = Signals_on pf ∧
     run (Signals_on pf) (events acts) init = Some (proc g) ∧
     only_asks (Signals_on pf) (proc g)).
Proof.
  split_and!; [done|done|done| | | | |].
  - intros [|] sig; simpl; rewrite ?elem_of_cons, elem_of_nil;
      intros H; destruct_or?; subst; done.
  - intros g p Hex Hv.
    exists (derived p (proc g)), (handled (var_Signals g) p (proc g)).
    split_and!.
    + apply Handle_Some.
    + unfold pstep, step. rewrite Hex. simpl. rewrite Hv.
      by rewrite Handle_Some.
    + rewrite handled_handlers. apply lookup_insert_eq.
    + intros ch Hch. rewrite handled_handlers. apply lookup_insert_ne. lia.
  - intros g sigs Hex. unfold pstep. by rewrite Hex.
  - intros [sigs|e] g g' Hs Hne; [eauto|]. exfalso. simpl in Hs.
    destruct (step (var_Signals g) e (proc g)); [|done].
    injection Hs as <-. done.
  - intros pf acts g Hr Ha.
    destruct (prun_no_assign _ _ _ Hr Ha) as [Hv Hrun]. simpl in Hv, Hrun.
    split_and!; [done|done|].
    eapply only_asks_run; [|exact Hrun]. by intros ch x Hx.
Qed.

(** C9.  [Handle] is the reference implementation of its documentation
    comment: on every parent, nil included, and in every state the two
    return the same context and leave the same state, or panic alike; hence
    no run of the process tells them apart. *)
Theorem Handle_is_reference (Signals : list nat) (p : option ctx) (s : state) :
  Handle Signals p s = Handle_reference Signals p s ∧
  ∀ es, run Signals es (outcome s (Handle Signals p s)) =
        run Signals es (outcome s (Handle_reference Signals p s)).
Proof.
  assert (Handle Signals p s = Handle_reference Signals p s) as H.
  { unfold Handle, Handle_reference, bind, go, modify, ret.
    destruct (NotifyContext p Signals s) as [[[c f] s']|msg|]; done. }
  split; [done|]. intros es. by rewrite H.
Qed.

(** C10.  A nil parent makes [Handle] panic.  [Handle] hands the parent on
    unchecked; it is [context.WithCancel], inside [signal.NotifyContext],
    that rejects it.  The panic ends the process.  A nil parent is the only
    way for [Handle] to fail. *)
Theorem Handle_nil_panics (Signals : list nat) (s : state) :
  Handle Signals None s = Panic "cannot create context from nil parent" ∧
  NotifyContext None Signals s = Panic "cannot create context from nil parent" ∧
  WithCancel None s = Panic "cannot create context from nil parent" ∧
  (∀ p, (∃ msg, Handle Signals p s = Panic msg) ↔ p = None) ∧
  step Signals (EvHandle None) s =
    (if exited s then None else Some (set_exited true s)).
Proof.
  split_and!; [done..| |].
  - intros [p|]; rewrite ?Handle_Some, ?Handle_None; split;
      [by intros [? ?]|done|done|eauto].
  - unfold step. by destruct (exited s).
Qed.

(** * Further properties of [Handle] *)

(** ** Every signal context follows the protocol *)




Lemma deliver_chan_empty sig s ch sigs :
  handlers s !! ch = Some sigs → wants sigs sig = true →
  chans s !! ch = Some None →
  chans (deliver sig s) !! ch = Some (Some sig).
Proof.
  intros Hh Hw Hc. unfold deliver.
  rewrite (intercepted_true sig s ch sigs) by done.
  simpl. rewrite list_lookup_imap, Hc. simpl. unfold offer. by rewrite Hh, Hw.
Qed.

(** A goroutine that has exited stays so, and is not run again. *)
Lemma exited_run sigs g es : ∀ s s',
  pool s !! g = Some Exited → run sigs es s = Some s' →
  pool s' !! g = Some Exited ∧ times_run g es = 0.
Proof.
  induction es as [|e es IH]; simpl; intros s s' Hg.
  - by intros [= <-].
  - destruct (step sigs e s) as [s1|] eqn:Hs; [|done]. intros Hr.
    destruct (is_run g e) eqn:Hrun.
    + destruct e as [| | | |k alt]; try done.
      apply bool_decide_eq_true in Hrun as ->.
      apply step_inv in Hs as [_ H]. apply run_goroutine_inv in H.
      by rewrite Hg in H.
    + apply (IH s1); [|done]. by apply (pool_step_other _ _ _ _ _ _ Hs).
Qed.

(** ** The properties *)

(** X1. The second interrupt ends the program (lines 46-48 of the
    documentation comment), under the conditions the code sets: the call is
    the only one that registered signals, its context is done, and its
    waiter has since been scheduled twice.  Then the handler table is empty
    and the next signal of the set gets the default of the platform: the
    process exits. *)
Theorem second_interrupt_exits
  (Signals : list nat) (s0 s1 sm s : state) (p c : ctx)
  (es1 es2 : list event) (sig : nat) :
  wf s0 → valid s0 p = true → handlers s0 = ∅ →
  Handle Signals (Some p) s0 = Ok (Some c, s1) →
  run Signals es1 s1 = Some sm → is_done sm c = true →
  run Signals es2 sm = Some s →
  2 ≤ times_run (waiter_slot p s0) es2 →
  handle_calls (es1 ++ es2) = 0 →
  exited s = false →
  wants Signals sig = true → default_exits sig = true →
  handlers s = ∅ ∧
  step Signals (EvSignal sig) s = Some (set_exited true s).
Proof.
  intros Hwf0 Hv Hempty HH Hr1 Hd Hr2 Hk Hcalls Hex Hw Hdef.
  destruct (Handle_tracks _ _ _ _ _ Hwf0 Hv HH) as (-> & -> & Hwf1 & Ht1).
  pose proof (wf_run _ _ _ _ Hwf1 Hr1) as Hwfm.
  pose proof (tracks_run _ _ _ _ _ _ _ _ _ Hwf1 Ht1 Hr1) as Htm.
  rewrite handle_calls_app in Hcalls.
  assert (handlers s = ∅) as Hs.
  { apply map_empty. intros ch.
    destruct (handlers s !! ch) as [x|] eqn:Hx; [|done]. exfalso.
    pose proof (handlers_run_sub _ _ _ _ _ _ Hr2 ltac:(lia) Hx) as Hxm.
    pose proof (handlers_run_sub _ _ _ _ _ _ Hr1 ltac:(lia) Hxm) as Hx1.
    rewrite handled_handlers, Hempty in Hx1.
    apply lookup_insert_Some in Hx1 as [[<- _]|[_ Hx1]]; [|done].
    assert (handlers s !! length (chans s0) = None); [|congruence].
    eapply wlag_run; [exact Hwfm|exact Htm| |exact Hr2|exact Hk].
    eapply done_wlag; [exact Htm|exact Hd]. }
  split; [done|]. unfold step. rewrite Hex. f_equal.
  apply deliver_default; [|done].
  apply bool_decide_eq_false. rewrite Hs. intros (ch & x & Hx & _). done.
Qed.



(** X4. The goroutines a call starts, and which of them come to an end.
    A call starts the waiter and, unless the parent is already done, the
    notifier; if the loop goroutine of os/signal does not run yet and the
    signal set has a signal to enable, [signal.Notify] starts it as well:
    three goroutines for the first call of a process on a parent that is
    not done.  Once the derived context is
    done, the waiter has exited after its second step at the latest, and so
    has the notifier; each of them can run until it has exited.  A goroutine
    that has exited stays so and is never run again.  The loop goroutine
    never ends. *)
Theorem goroutines_come_to_an_end
  (Signals : list nat) (s0 s1 sm s : state) (p c : ctx)
  (es1 es2 : list event) :
  wf s0 → valid s0 p = true →
  Handle Signals (Some p) s0 = Ok (Some c, s1) →
  run Signals es1 s1 = Some sm → is_done sm c = true →
  run Signals es2 sm = Some s →
  pool s1 =
    pool s0 ++ (if is_done s0 p then []
                else [Notifier_select c (length (chans s0))])
            ++ [Waiter_recv c (StopOf c (length (chans s0)))] ∧
  loop s1 = loop s0 || enables Signals ∧
  goroutines s1 =
    goroutines s0 + (if is_done s0 p then 1 else 2)
                  + (if negb (loop s0) && enables Signals then 1 else 0) ∧
  (loop s1 = true → loop sm = true ∧ loop s = true) ∧
  (2 ≤ times_run (waiter_slot p s0) es2 →
   pool s !! waiter_slot p s0 = Some Exited) ∧
  (pool s !! waiter_slot p s0 ≠ Some Exited → exited s = false →
   ∀ alt, is_Some (step Signals (EvRun (waiter_slot p s0) alt) s)) ∧
  (is_done s0 p = false → 2 ≤ times_run (notifier_slot s0) es2 →
   pool s !! notifier_slot s0 = Some Exited) ∧
  (is_done s0 p = false → pool s !! notifier_slot s0 ≠ Some Exited →
   exited s = false →
   ∀ alt, is_Some (step Signals (EvRun (notifier_slot s0) alt) s)) ∧
  (∀ g es' s', pool s !! g = Some Exited → run Signals es' s = Some s' →
   pool s' !! g = Some Exited ∧ times_run g es' = 0).
Proof.
  intros Hwf0 Hv HH Hr1 Hd Hr2.
  destruct (Handle_tracks _ _ _ _ _ Hwf0 Hv HH) as (-> & -> & Hwf1 & Ht1).
  pose proof (wf_run _ _ _ _ Hwf1 Hr1) as Hwfm.
  pose proof (tracks_run _ _ _ _ _ _ _ _ _ Hwf1 Ht1 Hr1) as Htm.
  pose proof (wf_run _ _ _ _ Hwfm Hr2) as Hwf.
  pose proof (tracks_run _ _ _ _ _ _ _ _ _ Hwfm Htm Hr2) as Ht.
  set (c := SignalCtx (length (ctxs s0)) (length (chans s0)) p) in *.
  assert (is_done s c = true) as Hds
    by apply (extends_done sm s c (extends_run _ _ _ _ Hr2) Hd).
  assert (is_done s0 p = false → ∀ s', s' = sm ∨ s' = s →
            pool s' !! notifier_slot s0 = Some (Notifier_select c (length (chans s0))) ∨
            pool s' !! notifier_slot s0 = Some (Notifier_cancel c) ∨
            pool s' !! notifier_slot s0 = Some Exited) as Hslot.
  { intros Hp s' Hs'.
    assert (pool (handled Signals p s0) !! notifier_slot s0
            = Some (Notifier_select c (length (chans s0)))) as H1.
    { rewrite handled_pool, Hp by done. by apply list_lookup_middle. }
    pose proof (notifier_slot_run Signals _ _ _ _ es1 _ _ Hr1 (or_introl H1)) as Hm.
    destruct Hs' as [-> | ->]; [done|].
    by apply (notifier_slot_run Signals _ _ _ _ es2 _ _ Hr2). }
  split_and!.
  - by apply handled_pool.
  - apply handled_loop.
  - unfold goroutines. rewrite handled_loop, handled_pool, !length_app by done.
    simpl. destruct (is_done s0 p), (loop s0), (enables Signals); simpl; lia.
  - intros Hl1. pose proof (loop_run _ _ _ _ Hr1 Hl1) as Hlm.
    split; [done|]. by apply (loop_run _ _ _ _ Hr2).
  - intros Hk.
    assert (handlers s !! length (chans s0) = None) as Hh.
    { eapply wlag_run; [exact Hwfm|exact Htm| |exact Hr2|exact Hk].
      eapply done_wlag; [exact Htm|exact Hd]. }
    by destruct (tracks_released _ _ _ _ _ _ _ Ht Hh).
  - intros Hne Hex alt. eapply wlag_enabled; [exact Ht|done| |done].
    destruct (handlers s !! length (chans s0)) as [x|] eqn:Hh; [eauto|].
    by destruct (tracks_released _ _ _ _ _ _ _ Ht Hh).
  - intros Hp Hk.
    eapply nlag_run; [|exact Hr2|exact Hk].
    apply done_nlag; [done|]. apply Hslot; [done|by left].
  - intros Hp Hne Hex alt. eapply nlag_enabled; [|done..].
    apply done_nlag; [done|]. apply Hslot; [done|by right].
  - intros g es' s' Hg Hr'. by eapply exited_run.
Qed.

(** X5. A call on a parent that is already done.  The derived context is
    done on return and no notifier is started: the waiter is the only
    goroutine the call adds to the pool (the loop goroutine of os/signal is
    started as by any call, if it does not run yet), and it can run at
    once.  The
    signals are registered all the same.  In every state the process
    reaches afterwards: the registration is in place until the waiter takes
    its second step, and that step removes it; as long as it is in place a
    signal of the set is intercepted, so the process lives, and the channel
    of the call holds a signal afterwards; and since nobody receives from
    that channel, a signal that is in it stays there in every later
    state. *)
Theorem handle_on_done_parent
  (Signals : list nat) (s0 s1 : state) (p c : ctx) :
  wf s0 → valid s0 p = true → is_done s0 p = true →
  Handle Signals (Some p) s0 = Ok (Some c, s1) →
  ∃ ch, ctx_chan c = Some ch ∧
    is_done s1 c = true ∧
    pool s1 = pool s0 ++ [Waiter_recv c (StopOf c ch)] ∧
    loop s1 = loop s0 || enables Signals ∧
    goroutines s1 =
      goroutines s0 + 1
      + (if negb (loop s0) && enables Signals then 1 else 0) ∧
    handlers s1 !! ch = Some Signals ∧
    chans s1 !! ch = Some None ∧
    (exited s0 = false →
     ∀ alt, is_Some (step Signals (EvRun (length (pool s0)) alt) s1)) ∧
    (∀ es s, run Signals es s1 = Some s →
       (times_run (length (pool s0)) es < 2 →
        handlers s !! ch = Some Signals) ∧
       (2 ≤ times_run (length (pool s0)) es → handlers s !! ch = None) ∧
       (∀ sig, wants Signals sig = true → is_Some (handlers s !! ch) →
          intercepted sig s = true ∧
          exited (deliver sig s) = exited s ∧
          ∃ x, chans (deliver sig s) !! ch = Some (Some x)) ∧
       (∀ x es' s', chans s !! ch = Some (Some x) →
          run Signals es' s = Some s' → chans s' !! ch = Some (Some x))) ∧
    (∀ sig es s, wants Signals sig = true →
       run Signals (EvSignal sig :: es) s1 = Some s →
       chans s !! ch = Some (Some sig)).
Proof.
  intros Hwf0 Hv Hp HH.
  destruct (Handle_tracks _ _ _ _ _ Hwf0 Hv HH) as (-> & -> & Hwf1 & Ht1).
  set (ch := length (chans s0)) in *.
  set (c := SignalCtx (length (ctxs s0)) ch p) in *.
  assert (waiter_slot p s0 = notifier_slot s0) as Hnw.
  { unfold waiter_slot, notifier_slot. rewrite Hp. lia. }
  rewrite Hnw in Ht1.
  assert (is_done (handled Signals p s0) c = true) as Hd.
  { unfold c, ch. by rewrite is_done_handled_new. }
  assert (handlers (handled Signals p s0) !! ch = Some Signals) as Hh.
  { rewrite handled_handlers. apply lookup_insert_eq. }
  assert (chans (handled Signals p s0) !! ch = Some None) as Hc1.
  { rewrite handled_chans. by apply list_lookup_middle. }
  assert (∀ es s x, wf s →
            tracks Signals (length (ctxs s0)) ch p
              (notifier_slot s0) (notifier_slot s0) s →
            chans s !! ch = Some (Some x) → ∀ s',
            run Signals es s = Some s' → chans s' !! ch = Some (Some x))
    as Hstays.
  { induction es as [|e es IH]; simpl; intros s x Hwf Ht Hx s'.
    - by intros [= <-].
    - destruct (step Signals e s) as [s2|] eqn:Hs2; [|done].
      apply IH; [by eapply wf_step|by eapply tracks_step|].
      by eapply chans_step_no_notifier. }
  exists ch. split_and!; [done|done| |apply handled_loop| |done|done| | |].
  - rewrite handled_pool, Hp by done. done.
  - unfold goroutines. rewrite handled_loop, handled_pool, Hp by done.
    rewrite length_app. simpl. destruct (loop s0), (enables Signals); simpl; lia.
  - intros Hex alt. eapply wlag_enabled; [exact Ht1|done|by eexists|].
    by rewrite handled_exited.
  - intros es s Hr.
    pose proof (wf_run _ _ _ _ Hwf1 Hr) as Hwf.
    pose proof (tracks_run _ _ _ _ _ _ _ _ _ Hwf1 Ht1 Hr) as Ht.
    assert (handlers s !! ch = Some Signals ∨ handlers s !! ch = None)
      as Hcases.
    { pose proof (tr_waiter _ _ _ _ _ _ _ Ht) as Hw.
      destruct (pool s !! notifier_slot s0) as [[| | | |]|]; try done.
      - left. by destruct Hw as (_ & _ & ?).
      - left. by destruct Hw as (_ & ? & _).
      - right. by destruct Hw as [? _]. }
    split_and!.
    + intros Hlt. destruct Hcases as [?|Hn]; [done|].
      pose proof (wleft_run Signals _ _ _ _ _ es _ _ Hwf1 Ht1 Hr Hn) as Hle.
      unfold wleft in Hle. rewrite handled_pool, Hp in Hle by done.
      simpl in Hle.
      rewrite list_lookup_middle in Hle by done.
      unfold notifier_slot in Hle. lia.
    + intros Hk. eapply wlag_run; [exact Hwf1|exact Ht1| |exact Hr|exact Hk].
      eapply done_wlag; [exact Ht1|exact Hd].
    + intros sig Hw [y Hy].
      assert (handlers s !! ch = Some Signals) as Hs
        by (destruct Hcases; congruence).
      pose proof (intercepted_true sig s ch Signals Hs Hw) as Hi.
      split_and!; [done|by apply deliver_intercepted|].
      pose proof (tr_chan _ _ _ _ _ _ _ Ht) as Hlt.
      destruct (lookup_lt_is_Some_2 _ _ Hlt) as [[x|] Hx].
      * exists x. by apply deliver_chan_full.
      * exists sig. by apply (deliver_chan_empty sig s ch Signals).
    + intros x es' s' Hx Hr'. by eapply Hstays.
  - intros sig es s Hw. simpl.
    destruct (step Signals (EvSignal sig) (handled Signals p s0)) as [s2|] eqn:Hs;
      [|done].
    pose proof (wf_step _ _ _ _ Hwf1 Hs) as Hwf2.
    pose proof (tracks_step _ _ _ _ _ _ _ _ _ Hwf1 Ht1 Hs) as Ht2.
    assert (chans s2 !! ch = Some (Some sig)) as Hc2.
    { apply step_inv in Hs as [_ ->].
      by apply (deliver_chan_empty sig _ ch Signals). }
    intros Hr. by eapply Hstays.
Qed.

(** X6. What a call of [Handle] changes, and what it leaves alone.  The
    call makes one context, one channel and one registration, all new: the
    context it returns did not exist before, the channel is empty.  Every
    context that existed is still there and is done exactly if it was, the
    parent included; the registrations and the contents of all other
    channels are as they were, and the process has not exited through the
    call. *)
Theorem Handle_frame (Signals : list nat) (s s' : state) (p c : ctx) :
  wf s →
  Handle Signals (Some p) s = Ok (Some c, s') →
  valid s c = false ∧
  ctxs s' = ctxs s ++ [c] ∧
  chans s' = chans s ++ [None] ∧
  handlers s' = <[length (chans s) := Signals]> (handlers s) ∧
  handlers s !! length (chans s) = None ∧
  (∀ d, valid s d = true → valid s' d = true ∧ is_done s' d = is_done s d) ∧
  (∀ k, k < length (chans s) →
     handlers s' !! k = handlers s !! k ∧ chans s' !! k = chans s !! k) ∧
  exited s' = exited s.
Proof.
  intros Hwf [-> ->]%Handle_inv. split_and!.
  - unfold valid, derived. simpl. apply bool_decide_eq_false.
    intros H%lookup_lt_Some. lia.
  - apply handled_ctxs.
  - apply handled_chans.
  - apply handled_handlers.
  - destruct (handlers s !! length (chans s)) as [x|] eqn:Hx; [|done].
    assert (length (chans s) < length (chans s)); [|lia].
    apply (wf_handlers _ Hwf). eauto.
  - intros d Hv. split.
    + by apply (extends_valid s _ d (extends_handled Signals p s)).
    + by apply is_done_handled_old.
  - intros k Hk. rewrite handled_handlers, handled_chans. split.
    + apply lookup_insert_ne. lia.
    + by apply lookup_app_l.
  - apply handled_exited.
Qed.

(** X7. The context [Handle] returns is a parent like any other: whatever
    is derived from it, with [context.WithCancel] or by another call of
    [Handle], over any number of levels, is done whenever it is done; and
    cancelling such a descendant never makes the context itself done. *)
Theorem children_follow
  (Signals : list nat) (s0 s1 s : state) (p c d : ctx) (es : list event) :
  wf s0 → valid s0 p = true →
  Handle Signals (Some p) s0 = Ok (Some c, s1) →
  run Signals es s1 = Some s →
  valid s d = true → derived_from c d = true → d ≠ c →
  (is_done s c = true → is_done s d = true) ∧
  (∀ f, cf_ctx f = d → is_done (call f s) c = is_done s c) ∧
  (∀ s', step Signals (EvCancel d) s = Some s' → is_done s' c = is_done s c).
Proof.
  intros Hwf0 Hv HH Hr Hvd Hdesc Hne.
  destruct (Handle_tracks _ _ _ _ _ Hwf0 Hv HH) as (-> & -> & Hwf1 & Ht1).
  pose proof (wf_run _ _ _ _ Hwf1 Hr) as Hwf.
  pose proof (tracks_run _ _ _ _ _ _ _ _ _ Hwf1 Ht1 Hr) as Ht.
  set (i := length (ctxs s0)) in *.
  set (c := SignalCtx i (length (chans s0)) p) in *.
  pose proof (tr_ctx _ _ _ _ _ _ _ Ht) as Hlc. fold c in Hlc.
  unfold derived_from in Hdesc. simpl in Hdesc.
  apply bool_decide_eq_true in Hdesc.
  destruct (chain_nonempty_valid _ _ _ Hvd Hdesc) as (j & Hj & Hlj).
  assert (i < j) as Hij.
  { pose proof (chain_le _ _ _ _ Hwf Hlj Hdesc).
    destruct (decide (i = j)) as [->|]; [|lia]. congruence. }
  assert (derived_from d c = false) as Hup.
  { unfold derived_from. rewrite Hj. apply bool_decide_eq_false. intros Hin.
    pose proof (chain_le _ _ _ _ Hwf Hlc Hin). lia. }
  assert (valid s c = true) as Hvc by by apply (valid_lookup _ i).
  split_and!.
  - intros Hd. apply is_done_true in Hd as (i' & [= <-] & Hcl).
    apply is_done_true. exists j. split; [done|].
    by apply (wf_down _ Hwf j d i).
  - intros f Hf. apply is_done_call_frame; [done..|by rewrite Hf].
  - intros s' [_ (_ & _ & ->)]%step_inv.
    by apply (is_done_call_frame s (CancelOf d)).
Qed.

(** What one step can add to the resources of the process. *)
Lemma step_resources sigs e s s' :
  wf s → step sigs e s = Some s' →
  size (handlers s') ≤ size (handlers s) + handle_calls [e] ∧
  length (pool s') ≤ length (pool s) + 2 * handle_calls [e] ∧
  length (chans s') ≤ length (chans s) + handle_calls [e] ∧
  (loop s' = true → loop s = true ∨ 1 ≤ handle_calls [e]).
Proof.
  intros Hwf Hs.
  assert (loop s' = true → loop s = true ∨ 1 ≤ handle_calls [e]) as Hloop.
  { intros Hl. destruct (proj2 (loop_step _ _ _ _ Hs) Hl) as [?|[q ->]];
      [by left|right; simpl; lia]. }
  enough (size (handlers s') ≤ size (handlers s) + handle_calls [e] ∧
          length (pool s') ≤ length (pool s) + 2 * handle_calls [e] ∧
          length (chans s') ≤ length (chans s) + handle_calls [e])
    as (? & ? & ?) by done.
  clear Hloop. apply step_inv in Hs as [_ H].
  destruct e as [q|d|[q|]|sig|k alt]; simpl.
  - destruct H as [_ ->].
    rewrite derive_handlers, derive_pool, derive_chans. lia.
  - destruct H as (_ & _ & ->).
    rewrite cancel_handlers, cancel_pool, cancel_chans. lia.
  - destruct H as [_ ->].
    rewrite handled_handlers, handled_pool, handled_chans by done.
    rewrite map_size_insert, !length_app. simpl.
    destruct (handlers s !! length (chans s)), (is_done s q); simpl;
      unfold id; lia.
  - subst. simpl. lia.
  - subst. rewrite deliver_handlers, deliver_pool.
    unfold deliver. destruct (intercepted sig s); simpl;
      [rewrite length_imap; lia|]. destruct (default_exits sig); simpl; lia.
  - destruct (run_goroutine_pool _ _ _ _ H) as [g' Hp].
    rewrite Hp, length_insert. apply run_goroutine_inv in H.
    destruct (pool s !! k) as [[c ch'|c|c f|f|]|]; [| | | |done|done].
    + destruct H as [[_ ->]|(y & _ & ->)]; simpl; rewrite ?length_insert; lia.
    + subst. simpl. rewrite cancel_handlers, cancel_chans. lia.
    + destruct H as [_ ->]. simpl. lia.
    + subst. simpl. rewrite call_chans.
      destruct f; simpl; rewrite ?cancel_handlers; [lia|].
      rewrite map_size_delete. destruct (handlers s !! ch); unfold id; lia.
Qed.

(** X8. The resources a process spends on [Handle] are bounded by the
    number of calls: in every state it reaches there are at most as many
    registrations and as many signal channels as there were calls, at most
    two goroutines of the pool for each call, and the one loop goroutine of
    os/signal on top of them, which runs only if there was a call.  A
    process that never called [Handle] has none of these. *)
Theorem resources_bounded (Signals : list nat) (es : list event) (s : state) :
  run Signals es init = Some s →
  size (handlers s) ≤ handle_calls es ∧
  length (chans s) ≤ handle_calls es ∧
  length (pool s) ≤ 2 * handle_calls es ∧
  goroutines s ≤ 2 * handle_calls es + 1 ∧
  (loop s = true → 1 ≤ handle_calls es) ∧
  (handle_calls es = 0 → goroutines s = 0 ∧ handlers s = ∅ ∧ chans s = []).
Proof.
  assert (∀ es s0 s, wf s0 → run Signals es s0 = Some s →
            size (handlers s) ≤ size (handlers s0) + handle_calls es ∧
            length (pool s) ≤ length (pool s0) + 2 * handle_calls es ∧
            length (chans s) ≤ length (chans s0) + handle_calls es ∧
            (loop s = true → loop s0 = true ∨ 1 ≤ handle_calls es)) as Hgen.
  { clear es s. induction es as [|e es IH]; intros s0 s Hwf.
    - simpl. intros [= <-]. split_and!; [lia..|by left].
    - change (e :: es) with ([e] ++ es) at 2 3 4 5.
      rewrite (handle_calls_app [e] es). simpl run.
      destruct (step Signals e s0) as [s1|] eqn:Hs; [|done]. intros Hr.
      destruct (step_resources _ _ _ _ Hwf Hs) as (H1 & H2 & H3 & H4).
      destruct (IH s1 s (wf_step _ _ _ _ Hwf Hs) Hr) as (G1 & G2 & G3 & G4).
      split_and!; [lia..|].
      intros Hl. destruct (G4 Hl) as [Hl1|?]; [|right; lia].
      destruct (H4 Hl1) as [?|?]; [by left|right; lia]. }
  intros Hr. destruct (Hgen es init s wf_init Hr) as (H1 & H2 & H3 & H4).
  assert (size (handlers init) = 0) as E by apply map_size_empty.
  rewrite E in H1. simpl in H2, H3, H4.
  assert (loop s = true → 1 ≤ handle_calls es) as Hloop.
  { intros Hl. by destruct (H4 Hl). }
  split_and!; [lia|lia|lia| |done|].
  - unfold goroutines. destruct (loop s); lia.
  - intros Hc. split_and!.
    + unfold goroutines. destruct (loop s) eqn:Hl.
      * specialize (Hloop eq_refl). lia.
      * lia.
    + apply map_size_empty_inv. lia.
    + apply length_zero_iff_nil. lia.
Qed.

(** * Witnesses and scenarios *)

Lemma handle_done_exactly_when_witness :
  wf init ∧ valid init Background = true ∧
  Handle (Signals_on Unix) (Some Background) init = Ok (Some ctxA, scenA_called) ∧
  run (Signals_on Unix) [EvSignal SIGINT; EvRun 0 false; EvRun 0 false]
    scenA_called = Some scenA_cancelled ∧
  is_done scenA_cancelled ctxA = true ∧
  (is_done scenA_cancelled ctxA = true →
   is_done scenA_cancelled Background = true ∨
   ∃ sig, EvSignal sig ∈ [EvSignal SIGINT; EvRun 0 false; EvRun 0 false] ∧
          wants (Signals_on Unix) sig = true).
Proof.
  assert (wf init) as Hwf by exact wf_init.
  assert (valid init Background = true) as Hv by reflexivity.
  assert (Handle (Signals_on Unix) (Some Background) init
          = Ok (Some ctxA, scenA_called)) as HH by (vm_compute; reflexivity).
  assert (run (Signals_on Unix) [EvSignal SIGINT; EvRun 0 false; EvRun 0 false]
            scenA_called = Some scenA_cancelled) as Hr
    by (vm_compute; reflexivity).
  split_and!; [exact Hwf|exact Hv|exact HH|exact Hr|vm_compute; reflexivity|].
  exact (proj1 (proj2 (handle_done_exactly_when _ _ _ _ _ _ _ Hwf Hv HH Hr))).
Defined.

Lemma registration_removed_once_witness :
  wf init ∧ valid init Background = true ∧
  Handle (Signals_on Unix) (Some Background) init = Ok (Some ctxA, scenA_called) ∧
  run (Signals_on Unix) traceA scenA_called = Some scenA_released ∧
  removals (Signals_on Unix) 0 traceA scenA_called = 1 ∧
  handlers scenA_released = ∅ ∧
  step (Signals_on Unix) (EvSignal SIGINT) scenA_released
    = Some (set_exited true scenA_released).
Proof.
  assert (wf init) as Hwf by exact wf_init.
  assert (valid init Background = true) as Hv by reflexivity.
  assert (Handle (Signals_on Unix) (Some Background) init
          = Ok (Some ctxA, scenA_called)) as HH by (vm_compute; reflexivity).
  assert (run (Signals_on Unix) traceA scenA_called = Some scenA_released)
    as Hr by (vm_compute; reflexivity).
  destruct (registration_removed_once _ _ _ _ _ _ _ Hwf Hv HH Hr)
    as (ch & Hch & _ & _ & _ & Hrem & _ & _ & Hsig).
  injection Hch as <-.
  destruct (Hsig SIGINT eq_refl) as [_ Hgone].
  destruct Hgone as (_ & _ & _ & Hsole); [vm_compute; reflexivity|].
  destruct Hsole as (Hempty & _ & Hexit); [reflexivity|reflexivity|].
  split_and!; [exact Hwf|exact Hv|exact HH|exact Hr| |exact Hempty|].
  - rewrite Hrem. vm_compute. reflexivity.
  - apply Hexit; reflexivity.
Defined.

Lemma Handle_returns_at_once_witness :
  Handle (Signals_on Unix) (Some Background) init = Ok (Some ctxA, scenA_called) ∧
  ctx_parent ctxA = Some Background ∧
  valid init ctxA = false ∧ valid scenA_called ctxA = true ∧
  waiter ctxA stopA scenA_called = Blocked ∧
  (∀ g alt, step (Signals_on Unix) (EvRun g alt) scenA_called = None).
Proof.
  assert (Handle (Signals_on Unix) (Some Background) init
          = Ok (Some ctxA, scenA_called)) as HH by (vm_compute; reflexivity).
  destruct (Handle_returns_at_once (Signals_on Unix) Background init)
    as (c & s' & HH' & _ & _ & Hpar & _ & Hnew & Hval & _ & _ & _ & _ & _ &
        _ & _ & Hwait & _).
  rewrite HH in HH'. injection HH' as <- <-.
  destruct (Hwait wf_init) as (_ & Hbody & Hblocked).
  split_and!; [exact HH|exact Hpar|exact Hnew|exact Hval|exact Hbody|].
  intros g alt. apply Hblocked; [reflexivity|simpl; lia].
Defined.

Lemma done_monotonic_terminal_witness :
  wf init ∧ valid init Background = true ∧
  Handle (Signals_on Unix) (Some Background) init = Ok (Some ctxA, scenA_called) ∧
  run (Signals_on Unix) [EvSignal SIGINT; EvRun 0 false] scenA_called
    = Some scenA_received ∧
  step (Signals_on Unix) (EvRun 0 false) scenA_received = Some scenA_cancelled ∧
  (is_done scenA_received ctxA = false →
   is_done scenA_cancelled ctxA = true →
   is_done scenA_cancelled Background = true ∨
   ∃ alt, EvRun 0 false = EvRun (notifier_slot init) alt ∧
          pool scenA_received !! notifier_slot init = Some (Notifier_cancel ctxA)).
Proof.
  assert (wf init) as Hwf by exact wf_init.
  assert (valid init Background = true) as Hv by reflexivity.
  assert (Handle (Signals_on Unix) (Some Background) init
          = Ok (Some ctxA, scenA_called)) as HH by (vm_compute; reflexivity).
  assert (run (Signals_on Unix) [EvSignal SIGINT; EvRun 0 false] scenA_called
          = Some scenA_received) as Hr by (vm_compute; reflexivity).
  assert (step (Signals_on Unix) (EvRun 0 false) scenA_received
          = Some scenA_cancelled) as Hs by (vm_compute; reflexivity).
  split_and!; [exact Hwf|exact Hv|exact HH|exact Hr|exact Hs|].
  destruct (done_monotonic_terminal _ _ _ _ _ _ _ _ _ Hwf Hv HH Hr Hs)
    as (_ & _ & _ & _ & Hflip & _).
  exact Hflip.
Defined.

Lemma cleanup_idempotent_witness :
  Handle (Signals_on Unix) (Some Background) init = Ok (Some ctxA, scenA_called) ∧
  call stopA (call stopA scenA_cancelled) = call stopA scenA_cancelled ∧
  call stopA (cancel ctxA scenA_received) = call stopA scenA_received.
Proof.
  assert (Handle (Signals_on Unix) (Some Background) init
          = Ok (Some ctxA, scenA_called)) as HH by (vm_compute; reflexivity).
  destruct (cleanup_idempotent _ _ _ _ _ HH) as (ch & f & Hch & Hf & _ & Hall).
  injection Hch as <-. subst f.
  split_and!; [exact HH| |].
  - exact (proj1 (proj2 (proj2 (Hall scenA_cancelled)))).
  - exact (proj1 (proj2 (proj2 (proj2 (Hall scenA_received))))).
Defined.

Lemma derivations_independent_witness :
  wf init ∧ valid init Background = true ∧
  Handle (Signals_on Unix) (Some Background) init = Ok (Some ctxA, scenA_called) ∧
  run (Signals_on Unix) [] scenA_called = Some scenA_called ∧
  valid scenA_called Background = true ∧
  Handle (Signals_on Unix) (Some Background) scenA_called
    = Ok (Some ctxB, scenD_called) ∧
  run (Signals_on Unix) [] scenD_called = Some scenD_called ∧
  derived_from ctxA Background = false ∧
  is_done (call stopA scenD_called) ctxB = is_done scenD_called ctxB ∧
  is_done (call (CancelOf ctxB) scenD_called) ctxA = is_done scenD_called ctxA.
Proof.
  assert (wf init) as Hwf by exact wf_init.
  assert (valid init Background = true) as Hv by reflexivity.
  assert (Handle (Signals_on Unix) (Some Background) init
          = Ok (Some ctxA, scenA_called)) as HH by (vm_compute; reflexivity).
  assert (run (Signals_on Unix) [] scenA_called = Some scenA_called) as Hr
    by reflexivity.
  assert (valid scenA_called Background = true) as Hv2 by reflexivity.
  assert (Handle (Signals_on Unix) (Some Background) scenA_called
          = Ok (Some ctxB, scenD_called)) as HH2 by (vm_compute; reflexivity).
  assert (run (Signals_on Unix) [] scenD_called = Some scenD_called) as Hr2
    by reflexivity.
  assert (derived_from ctxA Background = false) as Hind by reflexivity.
  destruct (derivations_independent _ _ _ _ _ _ _ _ _ _ _ _
              Hwf Hv HH Hr Hv2 HH2 Hr2 Hind) as [Hcalls _].
  destruct (Hcalls stopA (CancelOf ctxB) eq_refl eq_refl) as (H1 & H2 & _ & _).
  split_and!; [exact Hwf|exact Hv|exact HH|exact Hr|exact Hv2|exact HH2|
               exact Hr2|exact Hind|exact H1|exact H2].
Defined.

Lemma Handle_cannot_fail_witness :
  wf init ∧ valid init Background = true ∧
  ∃ c s', Handle (Signals_on Unix) (Some Background) init = Ok (Some c, s').
Proof.
  assert (wf init) as Hwf by exact wf_init.
  assert (valid init Background = true) as Hv by reflexivity.
  split_and!; [exact Hwf|exact Hv|].
  exact (proj1 (Handle_cannot_fail (Signals_on Unix) init Background Hwf Hv)).
Defined.

(** Scenario A: the first interrupt cancels the derived context and the
    registration is removed; the second interrupt ends the process. *)
Example scenario_A :
  run (Signals_on Unix) (EvHandle (Some Background) :: traceA) init
    = Some scenA_released ∧
  step (Signals_on Unix) (EvSignal SIGINT) scenA_released
    = Some (set_exited true scenA_released).
Proof. split; vm_compute; reflexivity. Qed.

(** Scenario B: the parent is cancelled before the call; the derived context
    is done on return, no notifier is started, the waiter can run. *)
Example scenario_B :
  ∃ s,
    run (Signals_on Unix)
      [EvWithCancel Background; EvCancel (CancelCtx 0 Background);
       EvHandle (Some (CancelCtx 0 Background))] init = Some s ∧
    is_done s (SignalCtx 1 0 (CancelCtx 0 Background)) = true ∧
    length (pool s) = 1 ∧
    ∃ s', run (Signals_on Unix) [EvRun 0 false; EvRun 0 false] s = Some s' ∧
          handlers s' = ∅.
Proof.
  eexists. split_and!; [vm_compute; reflexivity..|].
  eexists. split; vm_compute; reflexivity.
Qed.

(** Scenario C: no signal, the parent never done; both goroutines are
    blocked and the derived context is not done. *)
Example scenario_C :
  is_done scenA_called ctxA = false ∧
  ∀ g alt, step (Signals_on Unix) (EvRun g alt) scenA_called = None.
Proof.
  split; [reflexivity|]. intros [|[|g]] alt; vm_compute; reflexivity.
Qed.

(** Scenario D: two calls; a signal is relayed to both registrations, and
    each derived context is cancelled by its own notifier. *)
Example scenario_D :
  ∃ s,
    run (Signals_on Unix)
      [EvSignal SIGTERM; EvRun 0 false; EvRun 0 false] scenD_called = Some s ∧
    is_done s ctxA = true ∧ is_done s ctxB = false ∧
    chans s !! 1 = Some (Some SIGTERM) ∧
    ∃ s', run (Signals_on Unix) [EvRun 2 false; EvRun 2 false] s = Some s' ∧
          is_done s' ctxB = true.
Proof.
  eexists. split_and!; [vm_compute; reflexivity..|].
  eexists. split; vm_compute; reflexivity.
Qed.

(** ** Witnesses of the further properties *)

Lemma second_interrupt_exits_witness :
  wf init ∧ valid init Background = true ∧ handlers init = ∅ ∧
  Handle (Signals_on Unix) (Some Background) init = Ok (Some ctxA, scenA_called) ∧
  run (Signals_on Unix) [EvSignal SIGINT; EvRun 0 false; EvRun 0 false]
    scenA_called = Some scenA_cancelled ∧
  is_done scenA_cancelled ctxA = true ∧
  run (Signals_on Unix) [EvRun 1 false; EvRun 1 false] scenA_cancelled
    = Some scenA_released ∧
  2 ≤ times_run (waiter_slot Background init) [EvRun 1 false; EvRun 1 false] ∧
  handle_calls ([EvSignal SIGINT; EvRun 0 false; EvRun 0 false]
                ++ [EvRun 1 false; EvRun 1 false]) = 0 ∧
  exited scenA_released = false ∧
  wants (Signals_on Unix) SIGINT = true ∧ default_exits SIGINT = true ∧
  step (Signals_on Unix) (EvSignal SIGINT) scenA_released
    = Some (set_exited true scenA_released).
Proof.
  assert (wf init) as Hwf by exact wf_init.
  assert (valid init Background = true) as Hv by reflexivity.
  assert (handlers init = ∅) as He by reflexivity.
  assert (Handle (Signals_on Unix) (Some Background) init
          = Ok (Some ctxA, scenA_called)) as HH by (vm_compute; reflexivity).
  assert (run (Signals_on Unix) [EvSignal SIGINT; EvRun 0 false; EvRun 0 false]
            scenA_called = Some scenA_cancelled) as Hr1
    by (vm_compute; reflexivity).
  assert (is_done scenA_cancelled ctxA = true) as Hd
    by (vm_compute; reflexivity).
  assert (run (Signals_on Unix) [EvRun 1 false; EvRun 1 false] scenA_cancelled
          = Some scenA_released) as Hr2 by (vm_compute; reflexivity).
  assert (2 ≤ times_run (waiter_slot Background init)
                [EvRun 1 false; EvRun 1 false]) as Hk by (vm_compute; lia).
  assert (handle_calls ([EvSignal SIGINT; EvRun 0 false; EvRun 0 false]
                        ++ [EvRun 1 false; EvRun 1 false]) = 0) as Hc
    by reflexivity.
  assert (exited scenA_released = false) as Hex by reflexivity.
  assert (wants (Signals_on Unix) SIGINT = true) as Hw by reflexivity.
  assert (default_exits SIGINT = true) as Hdef by reflexivity.
  split_and!; [exact Hwf|exact Hv|exact He|exact HH|exact Hr1|exact Hd|
               exact Hr2|exact Hk|exact Hc|exact Hex|exact Hw|exact Hdef|].
  exact (proj2 (second_interrupt_exits _ _ _ _ _ _ _ _ _ _
                  Hwf Hv He HH Hr1 Hd Hr2 Hk Hc Hex Hw Hdef)).
Defined.



Lemma goroutines_come_to_an_end_witness :
  wf init ∧ valid init Background = true ∧
  Handle (Signals_on Unix) (Some Background) init = Ok (Some ctxA, scenA_called) ∧
  run (Signals_on Unix) [EvSignal SIGINT; EvRun 0 false; EvRun 0 false]
    scenA_called = Some scenA_cancelled ∧
  is_done scenA_cancelled ctxA = true ∧
  run (Signals_on Unix) [EvRun 1 false; EvRun 1 false] scenA_cancelled
    = Some scenA_released ∧
  goroutines scenA_called = goroutines init + 2 + 1 ∧
  loop scenA_released = true ∧
  pool scenA_released !! 1 = Some Exited.
Proof.
  assert (wf init) as Hwf by exact wf_init.
  assert (valid init Background = true) as Hv by reflexivity.
  assert (Handle (Signals_on Unix) (Some Background) init
          = Ok (Some ctxA, scenA_called)) as HH by (vm_compute; reflexivity).
  assert (run (Signals_on Unix) [EvSignal SIGINT; EvRun 0 false; EvRun 0 false]
            scenA_called = Some scenA_cancelled) as Hr1
    by (vm_compute; reflexivity).
  assert (is_done scenA_cancelled ctxA = true) as Hd
    by (vm_compute; reflexivity).
  assert (run (Signals_on Unix) [EvRun 1 false; EvRun 1 false] scenA_cancelled
          = Some scenA_released) as Hr2 by (vm_compute; reflexivity).
  destruct (goroutines_come_to_an_end _ _ _ _ _ _ _ _ _ Hwf Hv HH Hr1 Hd Hr2)
    as (_ & _ & Hcount & Hloop & Hwaiter & _).
  split_and!; [exact Hwf|exact Hv|exact HH|exact Hr1|exact Hd|exact Hr2|
               exact Hcount|exact (proj2 (Hloop eq_refl))|].
  apply Hwaiter. vm_compute. lia.
Defined.

Lemma handle_on_done_parent_witness :
  wf scenB_cancelled ∧ valid scenB_cancelled parentB = true ∧
  is_done scenB_cancelled parentB = true ∧
  Handle (Signals_on Unix) (Some parentB) scenB_cancelled
    = Ok (Some ctxB', scenB_called) ∧
  pool scenB_called = pool scenB_cancelled ++ [Waiter_recv ctxB' (StopOf ctxB' 0)] ∧
  goroutines scenB_called = goroutines scenB_cancelled + 1 + 1 ∧
  (∀ es s, run (Signals_on Unix) es scenB_called = Some s →
     times_run (length (pool scenB_cancelled)) es < 2 →
     intercepted SIGINT s = true ∧ exited (deliver SIGINT s) = exited s).
Proof.
  assert (wf scenB_cancelled) as Hwf.
  { apply (reachable_wf (Signals_on Unix)
             [EvWithCancel Background; EvCancel parentB]).
    vm_compute. reflexivity. }
  assert (valid scenB_cancelled parentB = true) as Hv by reflexivity.
  assert (is_done scenB_cancelled parentB = true) as Hd
    by (vm_compute; reflexivity).
  assert (Handle (Signals_on Unix) (Some parentB) scenB_cancelled
          = Ok (Some ctxB', scenB_called)) as HH by (vm_compute; reflexivity).
  destruct (handle_on_done_parent _ _ _ _ _ Hwf Hv Hd HH)
    as (ch & Hch & _ & Hpool & _ & Hcount & _ & _ & _ & Hlater & _).
  injection Hch as <-.
  split_and!; [exact Hwf|exact Hv|exact Hd|exact HH|exact Hpool|exact Hcount|].
  intros es s Hr Hlt.
  destruct (Hlater es s Hr) as (Hreg & _ & Hsig & _).
  destruct (Hsig SIGINT eq_refl) as (Hi & Hex & _).
  - rewrite (Hreg Hlt). eauto.
  - exact (conj Hi Hex).
Defined.

Lemma Handle_frame_witness :
  wf init ∧
  Handle (Signals_on Unix) (Some Background) init = Ok (Some ctxA, scenA_called) ∧
  valid init ctxA = false ∧
  handlers scenA_called = <[length (chans init) := Signals_on Unix]> (handlers init).
Proof.
  assert (wf init) as Hwf by exact wf_init.
  assert (Handle (Signals_on Unix) (Some Background) init
          = Ok (Some ctxA, scenA_called)) as HH by (vm_compute; reflexivity).
  destruct (Handle_frame _ _ _ _ _ Hwf HH) as (Hnew & _ & _ & Hh & _).
  split_and!; [exact Hwf|exact HH|exact Hnew|exact Hh].
Defined.

Lemma children_follow_witness :
  wf init ∧ valid init Background = true ∧
  Handle (Signals_on Unix) (Some Background) init = Ok (Some ctxA, scenA_called) ∧
  run (Signals_on Unix) [EvWithCancel ctxA] scenA_called = Some scenA_child ∧
  valid scenA_child childA = true ∧ derived_from ctxA childA = true ∧
  childA ≠ ctxA ∧
  is_done (cancel childA scenA_child) ctxA = is_done scenA_child ctxA.
Proof.
  assert (wf init) as Hwf by exact wf_init.
  assert (valid init Background = true) as Hv by reflexivity.
  assert (Handle (Signals_on Unix) (Some Background) init
          = Ok (Some ctxA, scenA_called)) as HH by (vm_compute; reflexivity).
  assert (run (Signals_on Unix) [EvWithCancel ctxA] scenA_called
          = Some scenA_child) as Hr by (vm_compute; reflexivity).
  assert (valid scenA_child childA = true) as Hvd by reflexivity.
  assert (derived_from ctxA childA = true) as Hdf by reflexivity.
  assert (childA ≠ ctxA) as Hne by discriminate.
  destruct (children_follow _ _ _ _ _ _ _ _ Hwf Hv HH Hr Hvd Hdf Hne)
    as (_ & Hcall & _).
  split_and!; [exact Hwf|exact Hv|exact HH|exact Hr|exact Hvd|exact Hdf|
               exact Hne|].
  exact (Hcall (CancelOf childA) eq_refl).
Defined.

Lemma resources_bounded_witness :
  run (Signals_on Unix) (EvHandle (Some Background) :: traceA) init
    = Some scenA_released ∧
  size (handlers scenA_released) ≤ 1 ∧
  goroutines scenA_released ≤ 3 ∧ goroutines scenA_released = 3.
Proof.
  assert (run (Signals_on Unix) (EvHandle (Some Background) :: traceA) init
          = Some scenA_released) as Hr by (vm_compute; reflexivity).
  destruct (resources_bounded _ _ _ Hr) as (H1 & _ & _ & H2 & _).
  split_and!; [exact Hr|exact H1|exact H2|reflexivity].
Defined.
